(** * libdivecomputer: ring-buffer dive extraction and the VEO 250 link protocol

    A shallow embedding of three translation units of libdivecomputer,

    - [mares_darwinair.c]  (indexed logbook and separate profile ring),
    - [suunto_common.c]    (one ring delimited by in-band markers),
    - [oceanic_veo250.c]   (ACK/NAK handshake, retries, checksummed pages),

    together with the properties of the natural-language specification that
    are decided by this code.

    Conventions.  An [unsigned int] is a [Z] and every unsigned operation
    that can wrap is written with [u32].  A byte is a [Byte.byte]; a buffer
    is a [list byte] addressed by a [Z] offset.  A callback receives its
    user data explicitly and returns the new user data next to its result.
    What a function does to the outside (records handed to the consumer,
    requests to the serial port) is kept in a list of events. *)

From Stdlib Require Import ZArith List Bool Lia.
From Stdlib.Strings Require Import Byte.
Import ListNotations.
Open Scope Z_scope.

(* ================================================================= *)
(** ** Machine integers, bytes and buffers *)

Definition u32 (z : Z) : Z := z mod 4294967296.

Definition byte_val (b : byte) : Z := Z.of_N (Byte.to_N b).

(** [data[off]]. Outside the buffer the C read is undefined; the model
    answers [x00] there. *)
Definition byte_at (data : list byte) (off : Z) : byte :=
  nth (Z.to_nat off) data x00.

(** The [len] bytes a [memcpy (dst, data + off, len)] reads. Where the C
    copy would run past the end of the buffer, the model stops there. *)
Definition slice (data : list byte) (off len : Z) : list byte :=
  firstn (Z.to_nat len) (skipn (Z.to_nat off) data).

Fixpoint bytes_eqb (a b : list byte) : bool :=
  match a, b with
  | [], [] => true
  | x :: a', y :: b' => Byte.eqb x y && bytes_eqb a' b'
  | _, _ => false
  end.

(** [memcmp (a, b, n) == 0]. *)
Definition memcmp_eq (a b : list byte) (n : nat) : bool :=
  bytes_eqb (firstn n a) (firstn n b).

(** [bytes] written over [data] from [off] on; used to build images. *)
Definition poke (data : list byte) (off : Z) (bytes : list byte) : list byte :=
  firstn (Z.to_nat off) data ++ bytes
  ++ skipn (Z.to_nat off + length bytes) data.

(** Modelled from the spec: [array_uint16_be] (array.h) is not among the
    sources; the spec reads a "big-endian 16-bit word" at these places. *)
Definition array_uint16_be (data : list byte) (off : Z) : Z :=
  Z.shiftl (byte_val (byte_at data off)) 8 + byte_val (byte_at data (off + 1)).

(* ================================================================= *)
(** ** What an extraction does to its consumer *)

(** [Assembled r]: the record [r] now stands in the work buffer.
    [Delivered r size rc]: the callback was called on the buffer with
    [size], whose first [size] bytes are [r], and answered [rc]. *)
Inductive event : Type :=
| Assembled (record : list byte)
| Delivered (record : list byte) (size : Z) (rc : Z).

Definition assembled (tr : list event) : list (list byte) :=
  flat_map (fun e => match e with Assembled r => [r] | _ => [] end) tr.

Definition delivered (tr : list event) : list (list byte) :=
  flat_map (fun e => match e with Delivered r _ _ => [r] | _ => [] end) tr.

(** The status and the events in what an extraction returns here. *)
Definition status_of {A B C : Type} (r : A * B * C) : A := fst (fst r).
Definition events_of {A B C : Type} (r : A * B * C) : B := snd (fst r).

(** A delivery the consumer answered with "stop". *)
Definition is_stop (e : event) : Prop :=
  match e with Delivered _ _ rc => rc = 0 | Assembled _ => False end.

(** Nothing follows a delivery that was answered with "stop". *)
Fixpoint stop_is_last (tr : list event) : Prop :=
  match tr with
  | [] => True
  | e :: tr' => (is_stop e -> tr' = []) /\ stop_is_last tr'
  end.

(** Control flow of one loop iteration. *)
Inductive flow (S R : Type) : Type :=
| Next (evs : list event) (s : S)
| Break (s : S)
| Return (evs : list event) (r : R).
Arguments Next {S R} evs s.
Arguments Break {S R} s.
Arguments Return {S R} evs r.

(* ================================================================= *)
(** ** mares_darwinair.c *)

Module MaresDarwinAir.

Inductive device_status_t : Type :=
| DEVICE_STATUS_SUCCESS
| DEVICE_STATUS_ERROR
| DEVICE_STATUS_IO
| DEVICE_STATUS_MEMORY
| DEVICE_STATUS_TYPE_MISMATCH.

Record mares_darwinair_layout_t : Type := {
  memsize : Z;
  rb_logbook_offset : Z;
  rb_logbook_size : Z;
  rb_logbook_count : Z;
  rb_profile_begin : Z;
  rb_profile_end : Z;
  samplesize : Z
}.

Record mares_darwinair_device_t : Type := {
  layout : mares_darwinair_layout_t;
  fingerprint : list byte            (* unsigned char fingerprint[6] *)
}.

(** A [device_t *] is [NULL], a Darwin Air handle, or the handle of some
    other backend. *)
Inductive device_t : Type :=
| MaresDarwinAir (device : mares_darwinair_device_t)
| OtherBackend.

Definition mares_darwinair_layout : mares_darwinair_layout_t := {|
  memsize := 0x4000;
  rb_logbook_offset := 0x0100;
  rb_logbook_size := 60;
  rb_logbook_count := 50;
  rb_profile_begin := 0x0CC0;
  rb_profile_end := 0x3FFF;
  samplesize := 3
|}.

Definition device_is_mares_darwinair (abstract : option device_t) : bool :=
  match abstract with
  | Some (MaresDarwinAir _) => true
  | _ => false
  end.

(** The handle as [mares_darwinair_device_open] leaves it ("Set the default
    values"); the serial port plays no part in the extraction. *)
Definition mares_darwinair_device_default : mares_darwinair_device_t := {|
  layout := mares_darwinair_layout;
  fingerprint := repeat x00 6
|}.

Definition mares_darwinair_device_set_fingerprint
    (device : mares_darwinair_device_t) (data : list byte) (size : Z)
  : device_status_t * mares_darwinair_device_t :=
  if negb (size =? 0) && negb (size =? 6) then
    (DEVICE_STATUS_ERROR, device)
  else if negb (size =? 0) then
    (DEVICE_STATUS_SUCCESS,
     {| layout := layout device; fingerprint := slice data 0 6 |})
  else
    (DEVICE_STATUS_SUCCESS,
     {| layout := layout device; fingerprint := repeat x00 6 |}).

Section Extract.

Context {U : Type}.

(** [int callback (data, size, fingerprint, fsize, userdata)]. The callback
    gets the work buffer; [data] holds its first [size] bytes. *)
Definition dive_callback_t : Type :=
  list byte -> Z -> list byte -> Z -> U -> Z * U.

Variable l : mares_darwinair_layout_t.
Variable fp : list byte.
Variable data : list byte.
Variable last : Z.
Variable callback : option dive_callback_t.

Record loop_state : Type := {
  ls_i : Z;
  ls_current : Z;
  ls_remaining : Z;
  ls_userdata : U
}.

(** One dive as the loop body finds it: where its logbook entry starts,
    how many profile bytes it has, the [(offset, length)] source of each
    [memcpy] of profile bytes in the order they land in the buffer, and
    the cursor after the copy. *)
Record dive : Type := {
  dv_offset : Z;
  dv_length : Z;
  dv_spans : list (Z * Z);
  dv_current : Z
}.

Definition dive_record (d : dive) : list byte :=
  slice data (dv_offset d) (rb_logbook_size l)
  ++ flat_map (fun s => slice data (fst s) (snd s)) (dv_spans d).

(** Lines 282-305: the entry for iteration [i], the guard that ends the
    walk, and the copy of the profile. [None] is the [break]. *)
Definition next_dive (i current remaining : Z) : option dive :=
  let idx := u32 (rb_logbook_count l + last - i) mod rb_logbook_count l in
  let offset := u32 (rb_logbook_offset l + u32 (idx * rb_logbook_size l)) in
  let nsamples := array_uint16_be data (offset + 6) in
  let length := u32 (nsamples * samplesize l) in
  if (nsamples =? 0xFFFF) || (remaining <? length) then None
  else if current <? u32 (rb_profile_begin l + length) then
    let a := u32 (current - rb_profile_begin l) in
    let b := u32 (length - a) in
    Some {| dv_offset := offset; dv_length := length;
            dv_spans := [(rb_profile_end l - b, b); (rb_profile_begin l, a)];
            dv_current := u32 (rb_profile_end l - b) |}
  else
    Some {| dv_offset := offset; dv_length := length;
            dv_spans := [(current - length, length)];
            dv_current := u32 (current - length) |}.

(** The state in which the next iteration starts: [current] is where the
    copy left it, [remaining -= length], [++i]. *)
Definition advance (s : loop_state) (d : dive) (u : U) : loop_state :=
  {| ls_i := u32 (ls_i s + 1);
     ls_current := dv_current d;
     ls_remaining := u32 (ls_remaining s - dv_length d);
     ls_userdata := u |}.

(** The body of the [for] loop. The record is what the buffer holds in
    its first [size] bytes after the copies; [memcmp] looks at the six
    bytes of the logbook entry the record starts with. *)
Definition body (s : loop_state) : flow loop_state (device_status_t * U) :=
  match next_dive (ls_i s) (ls_current s) (ls_remaining s) with
  | None => Break s
  | Some d =>
    let buffer := dive_record d in
    if memcmp_eq buffer fp 6 then
      Return [Assembled buffer] (DEVICE_STATUS_SUCCESS, ls_userdata s)
    else
      let size := u32 (rb_logbook_size l + dv_length d) in
      match callback with
      | None => Next [Assembled buffer] (advance s d (ls_userdata s))
      | Some cb =>
        let '(rc, u) := cb buffer size (slice buffer 0 6) 6 (ls_userdata s) in
        if rc =? 0 then
          Return [Assembled buffer; Delivered buffer size rc]
                 (DEVICE_STATUS_SUCCESS, u)
        else
          Next [Assembled buffer; Delivered buffer size rc] (advance s d u)
      end
  end.

(** [for (i = ...; i < rb_logbook_count; ++i)], with [n] the number of
    iterations still to run. *)
Fixpoint loop (n : nat) (s : loop_state)
  : device_status_t * list event * U :=
  match n with
  | O => (DEVICE_STATUS_SUCCESS, [], ls_userdata s)
  | S n' =>
    match body s with
    | Break s' => (DEVICE_STATUS_SUCCESS, [], ls_userdata s')
    | Return evs (rc, u) => (rc, evs, u)
    | Next evs s' =>
      let '(rc, tr, u) := loop n' s' in (rc, evs ++ tr, u)
    end
  end.

(** The dives the walk finds when nothing ends it but the image: the
    sentinel, the remaining-bytes bound, or the number of entries. *)
Fixpoint walk (n : nat) (i current remaining : Z) : list (list byte) :=
  match n with
  | O => []
  | S n' =>
    match next_dive i current remaining with
    | None => []
    | Some d =>
      dive_record d
      :: walk n' (u32 (i + 1)) (dv_current d) (u32 (remaining - dv_length d))
    end
  end.

(** The states in which the loop body is entered, when the walk starts
    at [eop]. *)
Inductive reachable (eop : Z) : loop_state -> Prop :=
| reach_init u :
    reachable eop
      {| ls_i := 0; ls_current := eop;
         ls_remaining := u32 (rb_profile_end l - rb_profile_begin l);
         ls_userdata := u |}
| reach_next s evs s' :
    reachable eop s -> body s = Next evs s' -> reachable eop s'.

Definition ring_inv (s : loop_state) : Prop :=
  rb_profile_begin l <= ls_current s <= rb_profile_end l
  /\ 0 <= ls_remaining s <= rb_profile_end l - rb_profile_begin l.

End Extract.

(** [malloc_ok] tells whether the [malloc] of the work buffer succeeds; the
    parameter [size] of the C function is not used by its body. The
    [match] is the cast of [abstract] that the test before it allows. *)
Definition mares_darwinair_extract_dives {U : Type}
    (abstract : option device_t) (data : list byte) (size : Z)
    (callback : option (@dive_callback_t U)) (userdata : U)
    (malloc_ok : bool)
  : device_status_t * list event * U :=
  if negb (device_is_mares_darwinair abstract) then
    (DEVICE_STATUS_TYPE_MISMATCH, [], userdata)
  else
    match abstract with
    | Some (MaresDarwinAir device) =>
      let l := layout device in
      let eop := array_uint16_be data 0x8A in
      if (eop <? rb_profile_begin l) || (rb_profile_end l <=? eop) then
        (DEVICE_STATUS_ERROR, [], userdata)
      else
        let last := byte_val (byte_at data 0x8C) in
        if rb_logbook_count l <=? last then
          (DEVICE_STATUS_ERROR, [], userdata)
        else if negb malloc_ok then
          (DEVICE_STATUS_MEMORY, [], userdata)
        else
          loop l (fingerprint device) data last callback
               (Z.to_nat (rb_logbook_count l))
               {| ls_i := 0; ls_current := eop;
                  ls_remaining := u32 (rb_profile_end l - rb_profile_begin l);
                  ls_userdata := userdata |}
    | _ => (DEVICE_STATUS_TYPE_MISMATCH, [], userdata)
    end.

(** The dive records present in an image, newest first. *)
Definition image_dives (l : mares_darwinair_layout_t) (data : list byte)
  : list (list byte) :=
  let eop := array_uint16_be data 0x8A in
  let last := byte_val (byte_at data 0x8C) in
  if (eop <? rb_profile_begin l) || (rb_profile_end l <=? eop) then []
  else if rb_logbook_count l <=? last then []
  else walk l data last (Z.to_nat (rb_logbook_count l)) 0 eop
            (u32 (rb_profile_end l - rb_profile_begin l)).

(** The layouts the loop is written for: the profile ring is not
    reversed, its bounds are [unsigned int]s, and so is the size of the
    work buffer, [rb_logbook_size + rb_profile_end - rb_profile_begin]. *)
Definition layout_ok (l : mares_darwinair_layout_t) : Prop :=
  0 <= rb_profile_begin l <= rb_profile_end l
  /\ rb_profile_end l < 4294967296
  /\ 0 <= rb_logbook_size l
  /\ rb_logbook_size l + (rb_profile_end l - rb_profile_begin l) < 4294967296.

(** A [memcpy] source that lies in the profile ring. *)
Definition span_in_ring (l : mares_darwinair_layout_t) (s : Z * Z) : Prop :=
  rb_profile_begin l <= fst s /\ 0 <= snd s
  /\ fst s + snd s <= rb_profile_end l.

(** The profile bytes handed to the consumer: what each delivery has
    beyond the logbook entry. *)
Fixpoint profile_bytes (l : mares_darwinair_layout_t) (tr : list event) : Z :=
  match tr with
  | [] => 0
  | Delivered _ size _ :: tr' => (size - rb_logbook_size l) + profile_bytes l tr'
  | Assembled _ :: tr' => profile_bytes l tr'
  end.

(** *** Images and consumers to run the extractor on *)

(** A consumer that always asks for more, and one that always stops. *)
Definition keep_going : @dive_callback_t unit := fun _ _ _ _ u => (1, u).
Definition stop_at_once : @dive_callback_t unit := fun _ _ _ _ u => (0, u).

(** No dive was ever logged, and index and pointer are both zero. *)
Definition erased_image : list byte := repeat x00 (Z.to_nat 0x4000).

(** All zero but for a valid end-of-profile pointer: fifty entries with
    no samples. *)
Definition blank_image : list byte :=
  poke (repeat x00 (Z.to_nat 0x4000)) 0x8A [x0c; xc0; x00].

(** Scenario 1 of the spec: one dive of ten samples in entry 0, ending at
    [0x0CC5], so that its profile starts at the high end of the ring. *)
Definition one_dive_image : list byte :=
  poke (poke (poke (poke (poke (repeat x00 (Z.to_nat 0x4000))
    0x8A [x0c; xc5; x00])
    0x0100 [x0b; x05; x1e; x0a; x2d; x07; x00; x0a])
    0x0C82 [xff; xff])
    0x0CC0 [xe1; xe2; xe3; xe4; xe5])
    (0x3FFF - 25)
    [xc1; xc2; xc3; xc4; xc5; xc6; xc7; xc8; xc9; xca; xcb; xcc; xcd;
     xce; xcf; xd0; xd1; xd2; xd3; xd4; xd5; xd6; xd7; xd8; xd9].

(** Two dives: the newer in entry 1 (two samples), the older in entry 0
    (one sample); entry 49 is unused. *)
Definition two_dive_image : list byte :=
  poke (poke (poke (poke (poke (repeat x00 (Z.to_nat 0x4000))
    0x8A [x0c; xc9; x01])
    0x0100 [x0b; x05; x1e; x0a; x2d; x07; x00; x01])
    0x013C [x0b; x05; x1f; x09; x0f; x03; x00; x02])
    0x0C82 [xff; xff])
    0x0CC0 [xa1; xa2; xa3; xb1; xb2; xb3; xb4; xb5; xb6].

(** The fingerprint of the older of the two dives. *)
Definition older_fingerprint : list byte := [x0b; x05; x1e; x0a; x2d; x07].

End MaresDarwinAir.

(* ================================================================= *)
(** ** ringbuffer.h *)

Module Ringbuffer.

(** Modelled from the spec: [ringbuffer_decrement] (ringbuffer.h) is not
    among the sources. The spec has the extractor look at "the byte
    peekOffset positions further back (wrapped)": [delta] positions before
    [a] in the ring [[begin, end)]. *)
Definition ringbuffer_decrement (a delta begin end_ : Z) : Z :=
  begin + (a - begin - delta) mod (end_ - begin).

(** Modelled from the spec: [ringbuffer_distance] (ringbuffer.h) is not
    among the sources. The spec takes "the span (current, previous), split
    across the wrap point if it crosses end": the number of positions from
    [a] forward to [b] in the ring [[begin, end)]. *)
Definition ringbuffer_distance (a b begin end_ : Z) : Z :=
  (b - a) mod (end_ - begin).

End Ringbuffer.

(* ================================================================= *)
(** ** suunto_common.c *)

Module SuuntoCommon.

Inductive suunto_status_t : Type :=
| SUUNTO_SUCCESS.

(** An [assert] that fails aborts the program at that line. *)
Inductive outcome : Type :=
| AssertionFailed (line : Z)
| Returned (rc : suunto_status_t).

Section Extract.

Context {U : Type}.

(** Modelled from the spec: the declaration of [dive_callback_t]
    (suunto_common.h) is not among the sources; the spec's consumer
    "returns a continue/stop decision". The call site is
    [callback (buffer, len, userdata)]. *)
Definition dive_callback_t : Type := list byte -> Z -> U -> Z * U.

(** The two helpers of ringbuffer.h the loop calls. *)
Variable ringbuffer_decrement : Z -> Z -> Z -> Z -> Z.
Variable ringbuffer_distance : Z -> Z -> Z -> Z -> Z.

Variable data : list byte.
Variables begin end_ peek : Z.
Variable callback : option dive_callback_t.

Record loop_state : Type := {
  ls_i : Z;
  ls_current : Z;
  ls_previous : Z;
  ls_userdata : U
}.

(** "Move backwards through the ringbuffer": lines 21-23. *)
Definition step_back (current : Z) : Z :=
  u32 ((if current =? begin then end_ else current) - 1).

(** The body of the [for] loop. The result of the callback is dropped. *)
Definition body (s : loop_state) : flow loop_state unit :=
  let current := step_back (ls_current s) in
  if Byte.eqb (byte_at data current) x82 then
    Break {| ls_i := ls_i s; ls_current := current;
             ls_previous := ls_previous s; ls_userdata := ls_userdata s |}
  else
    let index := ringbuffer_decrement current peek begin end_ in
    if Byte.eqb (byte_at data index) x80 then
      let len := ringbuffer_distance current (ls_previous s) begin end_ in
      let buffer :=
        if end_ <? u32 (current + len) then
          let a := u32 (end_ - current) in
          let b := u32 (u32 (current + len) - end_) in
          slice data current a ++ slice data begin b
        else
          slice data current len in
      match callback with
      | Some cb =>
        let '(rc, u) := cb buffer len (ls_userdata s) in
        Next [Assembled buffer; Delivered buffer len rc]
             {| ls_i := u32 (ls_i s + 1); ls_current := current;
                ls_previous := current; ls_userdata := u |}
      | None =>
        Next [Assembled buffer]
             {| ls_i := u32 (ls_i s + 1); ls_current := current;
                ls_previous := current; ls_userdata := ls_userdata s |}
      end
    else
      Next [] {| ls_i := u32 (ls_i s + 1); ls_current := current;
                 ls_previous := ls_previous s;
                 ls_userdata := ls_userdata s |}.

(** [for (i = 0; i < end - begin; ++i)], with [n] the number of iterations
    still to run. Next to the events and the state at the exit, the loop
    counts the one-byte steps it took. *)
Fixpoint loop (n : nat) (s : loop_state) : nat * list event * loop_state :=
  match n with
  | O => (O, [], s)
  | S n' =>
    match body s with
    | Break s' => (1%nat, [], s')
    | Return evs _ => (1%nat, evs, s)
    | Next evs s' =>
      let '(k, tr, s'') := loop n' s' in (S k, evs ++ tr, s'')
    end
  end.

End Extract.

(** [sizeof (buffer)]. *)
Definition buffer_size : Z := 0x2000 - 0x4C.

Record extraction {U : Type} : Type := {
  ex_outcome : outcome;
  ex_steps : nat;
  ex_events : list event;
  ex_current : Z;
  ex_userdata : U
}.
Arguments extraction U : clear implicits.

Definition suunto_common_extract_dives {U : Type}
    (ringbuffer_decrement ringbuffer_distance : Z -> Z -> Z -> Z -> Z)
    (data : list byte) (begin end_ eop peek : Z)
    (callback : option (@dive_callback_t U)) (userdata : U)
  : extraction U :=
  let stop line :=
    {| ex_outcome := AssertionFailed line; ex_steps := O; ex_events := [];
       ex_current := eop; ex_userdata := userdata |} in
  if negb ((begin <=? eop) && (eop <? end_)) then stop 11
  else if negb (Byte.eqb (byte_at data eop) x82) then stop 12
  else if negb (u32 (end_ - begin) <=? buffer_size) then stop 15
  else
    let '(k, tr, s) :=
      loop ringbuffer_decrement ringbuffer_distance data begin end_ peek
           callback (Z.to_nat (u32 (end_ - begin)))
           {| ls_i := 0; ls_current := eop; ls_previous := eop;
              ls_userdata := userdata |} in
    {| ex_outcome :=
         if Byte.eqb (byte_at data (ls_current s)) x82
         then Returned SUUNTO_SUCCESS else AssertionFailed 50;
       ex_steps := k; ex_events := tr;
       ex_current := ls_current s; ex_userdata := ls_userdata s |}.

(** *** A ring and a consumer to run the extractor on *)

(** Sixteen bytes: the end-of-profile marker at 10, end-of-dive markers at
    6 and 2. With [peek = 2] the dives are the bytes 8-9 and 4-7. *)
Definition two_dive_ring : list byte :=
  [x10; x11; x80; x13; x14; x15; x80; x17;
   x18; x19; x82; x1b; x1c; x1d; x1e; x1f].

(** A consumer that answers "stop" to every record. *)
Definition always_stop : @dive_callback_t unit := fun _ _ u => (0, u).

(** The consumer [cb] made to answer "go on" every time. *)
Definition insistent {U : Type} (cb : @dive_callback_t U) : @dive_callback_t U :=
  fun buffer len u => (1, snd (cb buffer len u)).

End SuuntoCommon.

(* ================================================================= *)
(** ** checksum.h *)

Module Checksum.

(** Modelled from the spec: [checksum_add_uint8] (checksum.h) is not among
    the sources. The spec: "unsigned sum of the data bytes modulo 256,
    seeded at zero"; the seed is the third argument at the call sites. *)
Definition checksum_add_uint8 (data : list byte) (size : Z) (init : Z) : Z :=
  fold_left (fun crc b => (crc + byte_val b) mod 256) (slice data 0 size) init.

(** The sum of the bytes, not reduced. *)
Definition byte_sum (data : list byte) : Z :=
  fold_right (fun b acc => byte_val b + acc) 0 data.

End Checksum.

(* ================================================================= *)
(** ** oceanic_veo250.c *)

Module OceanicVeo250.

Import Checksum.

(** The statuses this file names, and [DC_STATUS_IO] for what else the
    port may report. *)
Inductive dc_status_t : Type :=
| DC_STATUS_SUCCESS
| DC_STATUS_INVALIDARGS
| DC_STATUS_NOMEMORY
| DC_STATUS_IO
| DC_STATUS_TIMEOUT
| DC_STATUS_PROTOCOL
| DC_STATUS_CANCELLED.

Definition status_eqb (a b : dc_status_t) : bool :=
  match a, b with
  | DC_STATUS_SUCCESS, DC_STATUS_SUCCESS
  | DC_STATUS_INVALIDARGS, DC_STATUS_INVALIDARGS
  | DC_STATUS_NOMEMORY, DC_STATUS_NOMEMORY
  | DC_STATUS_IO, DC_STATUS_IO
  | DC_STATUS_TIMEOUT, DC_STATUS_TIMEOUT
  | DC_STATUS_PROTOCOL, DC_STATUS_PROTOCOL
  | DC_STATUS_CANCELLED, DC_STATUS_CANCELLED => true
  | _, _ => false
  end.

Definition MAXRETRIES : Z := 2.
Definition MULTIPAGE : Z := 4.
Definition ACK : byte := x5a.
Definition NAK : byte := xa5.

(** *** The serial port and the device layer, as the driver sees them

    Every call into serial.h, and the two calls into the device layer,
    is a request; the outside answers with a status, the bytes received
    (for a read) and a flag (for a question). The outside may answer as it
    likes, depending on all that happened before. *)

Inductive dc_direction_t : Type :=
| DC_DIRECTION_INPUT
| DC_DIRECTION_ALL.

Inductive dc_parity_t : Type := DC_PARITY_NONE.
Inductive dc_stopbits_t : Type := DC_STOPBITS_ONE.
Inductive dc_flowcontrol_t : Type := DC_FLOWCONTROL_NONE.

Inductive request : Type :=
| DeviceIsCancelled
| DeviceAllocate
| DeviceDeallocate
| SerialOpen (name : list byte)
| SerialConfigure (baudrate databits : Z) (parity : dc_parity_t)
                  (stopbits : dc_stopbits_t) (flowcontrol : dc_flowcontrol_t)
| SerialSetTimeout (timeout : Z)
| SerialSetDtr (level : Z)
| SerialSetRts (level : Z)
| SerialSleep (milliseconds : Z)
| SerialPurge (direction : dc_direction_t)
| SerialWrite (data : list byte)
| SerialRead (size : Z)
| SerialClose.

Record reply : Type := {
  rp_status : dc_status_t;
  rp_data : list byte;
  rp_flag : bool
}.

(** The requests made so far with their answers, the latest first. *)
Definition world : Type := list (request * reply).

Definition environment : Type := world -> request -> reply.

Definition is_success (rc : dc_status_t) : bool :=
  status_eqb rc DC_STATUS_SUCCESS.

(** A read of [size] bytes into [buffer]: the bytes received replace the
    front of the buffer. *)
Definition store (buffer received : list byte) (size : Z) : list byte :=
  let got := firstn (Z.to_nat size) received in
  got ++ skipn (length got) buffer.

Record oceanic_common_layout_t : Type := {
  memsize : Z;
  cf_devinfo : Z;
  cf_pointers : Z;
  rb_logbook_begin : Z;
  rb_logbook_end : Z;
  rb_logbook_entry_size : Z;
  rb_profile_begin : Z;
  rb_profile_end : Z;
  pt_mode_global : Z;
  pt_mode_logbook : Z;
  pt_mode_serial : Z
}.

Definition oceanic_veo250_layout : oceanic_common_layout_t := {|
  memsize := 0x8000;
  cf_devinfo := 0x0000;
  cf_pointers := 0x0040;
  rb_logbook_begin := 0x0400;
  rb_logbook_end := 0x0600;
  rb_logbook_entry_size := 8;
  rb_profile_begin := 0x0600;
  rb_profile_end := 0x8000;
  pt_mode_global := 1;
  pt_mode_logbook := 1;
  pt_mode_serial := 1
|}.

(** The fields of [oceanic_veo250_device_t] this file reads or writes. *)
Record oceanic_veo250_device_t : Type := {
  base_layout : option oceanic_common_layout_t;
  base_version : list byte;
  base_multipage : Z;
  last : Z
}.

Definition response : list byte :=
  [x50; x50; x53; x2d; x2d; x4f; x4b; x5f; x56; x32; x2e; x30; x30].

Definition byte_of_Z (z : Z) : byte :=
  match Byte.of_N (Z.to_N (z mod 256)) with
  | Some b => b
  | None => x00
  end.

(** The command that asks for the pages [first .. last]. *)
Definition read_command (first last : Z) : list byte :=
  [x20;
   byte_of_Z (Z.land first 0xFF);
   byte_of_Z (Z.land (Z.shiftr first 8) 0xFF);
   byte_of_Z (Z.land last 0xFF);
   byte_of_Z (Z.land (Z.shiftr last 8) 0xFF);
   x00].

(** Every [send] starts by asking whether the download was cancelled, and
    nothing else asks: the number of times the handshake was tried. *)
Definition attempts (evs : world) : nat :=
  length (filter (fun e => match fst e with
                           | DeviceIsCancelled => true
                           | _ => false
                           end) evs).

(** The pauses asked for, in milliseconds. *)
Definition sleeps (evs : world) : list Z :=
  flat_map (fun e => match fst e with
                     | SerialSleep ms => [ms]
                     | _ => []
                     end) evs.

(** The requests made, the first one first. *)
Definition requests (w : world) : list request := rev (map fst w).

(** What was added to the log [w] to make it [w']. *)
Definition since (w w' : world) : world :=
  firstn (length w' - length w) w'.

(** The two failures of [send] after which the command is sent again. *)
Definition retryable (rc : dc_status_t) : bool :=
  status_eqb rc DC_STATUS_TIMEOUT || status_eqb rc DC_STATUS_PROTOCOL.

(** Two buffers of the same length that differ in one byte. *)
Definition differ_in_one_byte (a b : list byte) : Prop :=
  exists pre x y post, a = pre ++ x :: post /\ b = pre ++ y :: post /\ x <> y.

Section Driver.

Variable env : environment.

(** [PAGESIZE] (oceanic_common.h) is not among the sources. *)
Variable PAGESIZE : Z.

Definition call (rq : request) (w : world) : reply * world :=
  let r := env w rq in (r, (rq, r) :: w).

Definition oceanic_veo250_send (command : list byte) (csize : Z) (w : world)
  : dc_status_t * world :=
  let '(c, w) := call DeviceIsCancelled w in
  if rp_flag c then (DC_STATUS_CANCELLED, w)
  else
    let '(_, w) := call (SerialPurge DC_DIRECTION_INPUT) w in
    let '(r, w) := call (SerialWrite (slice command 0 csize)) w in
    if negb (is_success (rp_status r)) then (rp_status r, w)
    else
      let '(r, w) := call (SerialRead 1) w in
      let response := store [NAK] (rp_data r) 1 in
      if negb (is_success (rp_status r)) then (rp_status r, w)
      else if negb (Byte.eqb (byte_at response 0) ACK) then
        (DC_STATUS_PROTOCOL, w)
      else (DC_STATUS_SUCCESS, w).

(** The [while] loop of [oceanic_veo250_transfer]. It ends with the
    status of the last [send]. [fuel] bounds the number of iterations;
    [None] is a loop that was cut short. *)
Fixpoint handshake (fuel : nat) (command : list byte) (csize : Z)
    (nretries : Z) (w : world) : option (dc_status_t * world) :=
  match fuel with
  | O => None
  | S fuel' =>
    let '(rc, w) := oceanic_veo250_send command csize w in
    if is_success rc then Some (rc, w)
    else if negb (status_eqb rc DC_STATUS_TIMEOUT)
            && negb (status_eqb rc DC_STATUS_PROTOCOL) then Some (rc, w)
    else if MAXRETRIES <=? nretries then Some (rc, w)
    else
      let '(_, w) := call (SerialSleep 100) w in
      handshake fuel' command csize (u32 (nretries + 1)) w
  end.

(** Enough for the loop: one iteration for each value [0 .. MAXRETRIES] of
    [nretries]. *)
Definition handshake_fuel : nat := S (Z.to_nat MAXRETRIES).

(** The [j]-th repetition of the command (counting from 0) when each
    earlier one was followed by the pause and a new try. *)
Fixpoint attempt (command : list byte) (csize : Z) (j : nat) (w : world)
  : dc_status_t * world :=
  match j with
  | O => oceanic_veo250_send command csize w
  | S j' =>
    let '(_, w) := attempt command csize j' w in
    let '(_, w) := call (SerialSleep 100) w in
    oceanic_veo250_send command csize w
  end.

Definition oceanic_veo250_transfer (command : list byte) (csize : Z)
    (answer : list byte) (asize : Z) (w : world)
  : option (dc_status_t * list byte * world) :=
  match handshake handshake_fuel command csize 0 w with
  | None => None
  | Some (rc, w) =>
    if negb (is_success rc) then Some (rc, answer, w)
    else
      let '(r, w) := call (SerialRead asize) w in
      let answer := store answer (rp_data r) asize in
      if negb (is_success (rp_status r)) then Some (rp_status r, answer, w)
      else if negb (Byte.eqb (byte_at answer (u32 (asize - 1))) NAK) then
        Some (DC_STATUS_PROTOCOL, answer, w)
      else Some (DC_STATUS_SUCCESS, answer, w)
  end.

Definition oceanic_veo250_init (w : world) : dc_status_t * world :=
  let command := [x55; x00] in
  let '(r, w) := call (SerialWrite command) w in
  if negb (is_success (rp_status r)) then (rp_status r, w)
  else
    let '(r, w) := call (SerialRead 13) w in
    let n := length (firstn 13 (rp_data r)) in
    let answer := store (repeat x00 13) (rp_data r) 13 in
    if negb (is_success (rp_status r)) then
      if (n =? 0)%nat then (DC_STATUS_SUCCESS, w) else (rp_status r, w)
    else if negb (memcmp_eq answer response 13) then (DC_STATUS_PROTOCOL, w)
    else (DC_STATUS_SUCCESS, w).

(** The handle is a VEO 250 handle, so [ISINSTANCE] holds. [data] is
    returned as it is left: overwritten with the page on success,
    untouched otherwise. *)
Definition oceanic_veo250_device_version (data : list byte) (size : Z)
    (w : world) : option (dc_status_t * list byte * world) :=
  if size <? PAGESIZE then Some (DC_STATUS_INVALIDARGS, data, w)
  else
    let answer := repeat x00 (Z.to_nat (PAGESIZE + 2)) in
    let command := [x90; x00] in
    match oceanic_veo250_transfer command 2 answer (PAGESIZE + 2) w with
    | None => None
    | Some (rc, answer, w) =>
      if negb (is_success rc) then Some (rc, data, w)
      else
        let crc := byte_val (byte_at answer PAGESIZE) in
        let ccrc := checksum_add_uint8 answer PAGESIZE 0 in
        if negb (crc =? ccrc) then Some (DC_STATUS_PROTOCOL, data, w)
        else Some (DC_STATUS_SUCCESS, store data (slice answer 0 PAGESIZE) PAGESIZE, w)
    end.

(** [error_close] and [error_free]. *)
Definition error_close (status : dc_status_t) (w : world)
  : dc_status_t * option oceanic_veo250_device_t * world :=
  let '(_, w) := call SerialClose w in
  let '(_, w) := call DeviceDeallocate w in
  (status, None, w).

Definition error_free (status : dc_status_t) (w : world)
  : dc_status_t * option oceanic_veo250_device_t * world :=
  let '(_, w) := call DeviceDeallocate w in
  (status, None, w).

(** What [oceanic_veo250_device_open] asks for before it initializes the
    data cable, in order. *)
Definition setup_requests (name : list byte) : list request :=
  [DeviceAllocate; SerialOpen name;
   SerialConfigure 9600 8 DC_PARITY_NONE DC_STOPBITS_ONE DC_FLOWCONTROL_NONE;
   SerialSetTimeout 3000; SerialSetDtr 1; SerialSetRts 1;
   SerialSleep 100; SerialPurge DC_DIRECTION_ALL].

(** An answer [oceanic_veo250_device_open] goes on after. *)
Definition granted (rq : request) (r : reply) : bool :=
  match rq with
  | DeviceAllocate => rp_flag r
  | SerialSleep _ | SerialPurge _ => true
  | _ => is_success (rp_status r)
  end.

Fixpoint all_granted (rqs : list request) (w : world) : bool :=
  match rqs with
  | [] => true
  | rq :: rqs' =>
    let '(r, w) := call rq w in granted rq r && all_granted rqs' w
  end.

Fixpoint play (rqs : list request) (w : world) : world :=
  match rqs with
  | [] => w
  | rq :: rqs' => play rqs' (snd (call rq w))
  end.

(** [out] is never [NULL] here. [OCEANIC_COMMON_MATCH] (oceanic_common.h)
    is not among the sources; both branches of the test on it install the
    same layout. *)
Definition oceanic_veo250_device_open (name : list byte) (w : world)
  : option (dc_status_t * option oceanic_veo250_device_t * world) :=
  let '(r, w) := call DeviceAllocate w in
  if negb (rp_flag r) then Some (DC_STATUS_NOMEMORY, None, w)
  else
    let '(r, w) := call (SerialOpen name) w in
    if negb (is_success (rp_status r)) then Some (error_free (rp_status r) w)
    else
    let '(r, w) :=
      call (SerialConfigure 9600 8 DC_PARITY_NONE DC_STOPBITS_ONE
                            DC_FLOWCONTROL_NONE) w in
    if negb (is_success (rp_status r)) then Some (error_close (rp_status r) w)
    else
    let '(r, w) := call (SerialSetTimeout 3000) w in
    if negb (is_success (rp_status r)) then Some (error_close (rp_status r) w)
    else
    let '(r, w) := call (SerialSetDtr 1) w in
    if negb (is_success (rp_status r)) then Some (error_close (rp_status r) w)
    else
    let '(r, w) := call (SerialSetRts 1) w in
    if negb (is_success (rp_status r)) then Some (error_close (rp_status r) w)
    else
    let '(_, w) := call (SerialSleep 100) w in
    let '(_, w) := call (SerialPurge DC_DIRECTION_ALL) w in
    let '(status, w) := oceanic_veo250_init w in
    if negb (is_success status) then Some (error_close status w)
    else
    let '(_, w) := call (SerialSleep 100) w in
    match oceanic_veo250_device_version
            (repeat x00 (Z.to_nat PAGESIZE)) PAGESIZE w with
    | None => None
    | Some (status, version, w) =>
      if negb (is_success status) then Some (error_close status w)
      else
        Some (DC_STATUS_SUCCESS,
              Some {| base_layout := Some oceanic_veo250_layout;
                      base_version := version;
                      base_multipage := MULTIPAGE;
                      last := 0 |},
              w)
    end.

(** The [for] loop of [oceanic_veo250_device_read], lines 441-457: check
    and copy out [n] pages of [answer]. [out] is what has been written
    through [data] so far. *)
Fixpoint read_packets (n : nat) (answer : list byte)
    (offset nbytes address : Z) (out : list byte)
  : dc_status_t * Z * Z * list byte :=
  match n with
  | O => (DC_STATUS_SUCCESS, nbytes, address, out)
  | S n' =>
    let crc := byte_val (byte_at answer (offset + PAGESIZE)) in
    let ccrc := checksum_add_uint8 (skipn (Z.to_nat offset) answer) PAGESIZE 0 in
    if negb (crc =? ccrc) then (DC_STATUS_PROTOCOL, nbytes, address, out)
    else
      read_packets n' answer (u32 (offset + (PAGESIZE + 1)))
                   (u32 (nbytes + PAGESIZE)) (u32 (address + PAGESIZE))
                   (out ++ slice answer offset PAGESIZE)
  end.

(** The [while (nbytes < size)] loop of [oceanic_veo250_device_read]. *)
Fixpoint read_loop (fuel : nat) (device : oceanic_veo250_device_t)
    (address nbytes size : Z) (out : list byte) (w : world)
  : option (dc_status_t * oceanic_veo250_device_t * list byte * world) :=
  if negb (nbytes <? size) then Some (DC_STATUS_SUCCESS, device, out, w)
  else
    match fuel with
    | O => None
    | S fuel' =>
      let npackets := u32 (size - nbytes) / PAGESIZE in
      let npackets := if MULTIPAGE <? npackets then MULTIPAGE else npackets in
      let first := address / PAGESIZE in
      let last := u32 (first + npackets - 1) in
      let answer := repeat x00 (Z.to_nat ((PAGESIZE + 1) * MULTIPAGE + 1)) in
      let command := read_command first last in
      match oceanic_veo250_transfer command 6 answer
              (u32 ((PAGESIZE + 1) * npackets + 1)) w with
      | None => None
      | Some (rc, answer, w) =>
        if negb (is_success rc) then Some (rc, device, out, w)
        else
          let device := {| base_layout := base_layout device;
                           base_version := base_version device;
                           base_multipage := base_multipage device;
                           last := last |} in
          match read_packets (Z.to_nat npackets) answer 0 nbytes address out with
          | (DC_STATUS_SUCCESS, nbytes, address, out) =>
            read_loop fuel' device address nbytes size out w
          | (rc, _, _, out) => Some (rc, device, out, w)
          end
      end
    end.

(** [out] collects, in order, the pages written through [data]. *)
Definition oceanic_veo250_device_read (device : oceanic_veo250_device_t)
    (address size : Z) (w : world)
  : option (dc_status_t * oceanic_veo250_device_t * list byte * world) :=
  if negb (address mod PAGESIZE =? 0) || negb (size mod PAGESIZE =? 0) then
    Some (DC_STATUS_INVALIDARGS, device, [], w)
  else
    read_loop (Z.to_nat size) device address 0 size [] w.

End Driver.

(** *** Devices to run the driver against *)

Definition answer (rc : dc_status_t) (data : list byte) (flag : bool) : reply :=
  {| rp_status := rc; rp_data := data; rp_flag := flag |}.

(** A port on which everything succeeds and every read brings zeros. *)
Definition quiet : environment := fun _ rq =>
  match rq with
  | DeviceAllocate => answer DC_STATUS_SUCCESS [] true
  | SerialRead size => answer DC_STATUS_SUCCESS (repeat x00 (Z.to_nat size)) false
  | _ => answer DC_STATUS_SUCCESS [] false
  end.

Definition reads_so_far (w : world) : nat :=
  length (filter (fun e => match fst e with
                           | SerialRead _ => true
                           | _ => false
                           end) w).

(** A port on which everything succeeds and the reads bring, one after
    the other, the given bytes; when they are used up, reads time out. *)
Definition scripted (reads : list (list byte)) : environment := fun w rq =>
  match rq with
  | DeviceAllocate => answer DC_STATUS_SUCCESS [] true
  | SerialRead _ =>
    match nth_error reads (reads_so_far w) with
    | Some data => answer DC_STATUS_SUCCESS data false
    | None => answer DC_STATUS_TIMEOUT [] false
    end
  | _ => answer DC_STATUS_SUCCESS [] false
  end.

Definition sample_page : list byte :=
  [x47; x45; x4e; x52; x45; x41; x43; x54;
   x20; x00; x00; x20; x32; x35; x36; x4b].

End OceanicVeo250.

(* ================================================================= *)
(** ** mares_darwinair.c: further notions for the extractor *)

Module MaresDarwinAirImage.

Import MaresDarwinAir.

(** An image large enough for a layout: the logbook slots and the profile
    ring lie inside it, and the layout is one the loop is written for. *)
Definition image_fits (l : mares_darwinair_layout_t) (data : list byte)
  : Prop :=
  layout_ok l
  /\ 0 < rb_logbook_count l
  /\ 0 <= rb_logbook_offset l
  /\ rb_logbook_offset l + rb_logbook_count l * rb_logbook_size l
     <= Z.of_nat (length data)
  /\ rb_profile_end l <= Z.of_nat (length data)
  /\ Z.of_nat (length data) < 4294967296.

(** The place in memory of a position counted below [rb_profile_begin]:
    one turn of the ring higher. *)
Definition ring_position (l : mares_darwinair_layout_t) (p : Z) : Z :=
  if p <? rb_profile_begin l
  then p + (rb_profile_end l - rb_profile_begin l)
  else p.

(** The [length] bytes of the ring that end at [current], oldest first. *)
Definition ring_bytes (l : mares_darwinair_layout_t) (data : list byte)
    (current length : Z) : list byte :=
  map (fun k => byte_at data (ring_position l (current - length + Z.of_nat k)))
      (seq 0 (Z.to_nat length)).

(** What a record looks like to the consumer: as many bytes as the size
    it is told, at least a logbook entry and at most the work buffer. *)
Definition well_sized (l : mares_darwinair_layout_t) (e : event) : Prop :=
  match e with
  | Assembled r => rb_logbook_size l <= Z.of_nat (length r)
  | Delivered r size _ =>
    Z.of_nat (length r) = size
    /\ rb_logbook_size l <= size
       <= rb_logbook_size l + (rb_profile_end l - rb_profile_begin l)
  end.

(** The calls of the callback that a list of events tells of, made again:
    each with the user data the call before returned. [None] if the callback
    answers otherwise than the events say. *)
Fixpoint replay {U : Type} (cb : @dive_callback_t U) (u : U)
    (tr : list event) : option U :=
  match tr with
  | [] => Some u
  | Assembled _ :: tr' => replay cb u tr'
  | Delivered r size rc :: tr' =>
    let '(rc', u') := cb r size (slice r 0 6) 6 u in
    if rc' =? rc then replay cb u' tr' else None
  end.

End MaresDarwinAirImage.

(* ================================================================= *)
(** ** mares_darwinair.c: opening and closing the device *)

Module MaresDarwinAirPort.

Import MaresDarwinAir.

(** The calls into the C library and into serial.h. Each one answers
    with the [int] it returns (-1 on failure), [malloc] with 0 for [NULL]
    and anything else for a pointer. *)
Inductive serial_parity_t : Type := SERIAL_PARITY_NONE.
Inductive serial_flowcontrol_t : Type := SERIAL_FLOWCONTROL_NONE.
Inductive serial_queue_t : Type := SERIAL_QUEUE_BOTH.

Inductive request : Type :=
| Malloc
| Free
| SerialOpen (name : list byte)
| SerialConfigure (baudrate databits : Z) (parity : serial_parity_t)
                  (stopbits : Z) (flowcontrol : serial_flowcontrol_t)
| SerialSetTimeout (timeout : Z)
| SerialSetDtr (level : Z)
| SerialSetRts (level : Z)
| SerialFlush (queue : serial_queue_t)
| SerialClose.

(** The requests made so far with their answers, the latest first. *)
Definition world : Type := list (request * Z).

Definition environment : Type := world -> request -> Z.

(** Ports that were opened, and calls to close one. *)
Definition opened (w : world) : nat :=
  length (filter (fun e => match e with
                           | (SerialOpen _, rc) => negb (rc =? -1)
                           | _ => false
                           end) w).

Definition closed (w : world) : nat :=
  length (filter (fun e => match fst e with
                           | SerialClose => true
                           | _ => false
                           end) w).

(** Handles that were allocated, and calls to free one. *)
Definition allocated (w : world) : nat :=
  length (filter (fun e => match e with
                           | (Malloc, p) => negb (p =? 0)
                           | _ => false
                           end) w).

Definition freed (w : world) : nat :=
  length (filter (fun e => match fst e with
                           | Free => true
                           | _ => false
                           end) w).

Section Port.

Variable env : environment.

Definition call (rq : request) (w : world) : Z * world :=
  let r := env w rq in (r, (rq, r) :: w).

(** [serial_close (device->base.port); free (device); return
    DEVICE_STATUS_IO;], the way out of every failure once the port is
    open. *)
Definition fail_close (w : world)
  : device_status_t * option mares_darwinair_device_t * world :=
  let '(_, w) := call SerialClose w in
  let '(_, w) := call Free w in
  (DEVICE_STATUS_IO, None, w).

(** [out] is not [NULL]. [mares_common_device_init] (mares_common.h) is
    not among the sources; it fills the fields of the base class, of which
    the handle of the model has none. *)
Definition mares_darwinair_device_open (name : list byte) (w : world)
  : device_status_t * option mares_darwinair_device_t * world :=
  let '(p, w) := call Malloc w in
  if p =? 0 then (DEVICE_STATUS_MEMORY, None, w)
  else
    let device := {| layout := mares_darwinair_layout;
                     fingerprint := repeat x00 6 |} in
    let '(rc, w) := call (SerialOpen name) w in
    if rc =? -1 then
      let '(_, w) := call Free w in (DEVICE_STATUS_IO, None, w)
    else
    let '(rc, w) :=
      call (SerialConfigure 9600 8 SERIAL_PARITY_NONE 1
                            SERIAL_FLOWCONTROL_NONE) w in
    if rc =? -1 then fail_close w
    else
    let '(rc, w) := call (SerialSetTimeout 1000) w in
    if rc =? -1 then fail_close w
    else
    let '(rc, w) := call (SerialSetDtr 1) w in
    if rc =? -1 then fail_close w
    else
    let '(rc, w) := call (SerialSetRts 1) w in
    if rc =? -1 then fail_close w
    else
    let '(_, w) := call (SerialFlush SERIAL_QUEUE_BOTH) w in
    (DEVICE_STATUS_SUCCESS, Some device, w).

Definition mares_darwinair_device_close (w : world)
  : device_status_t * world :=
  let '(rc, w) := call SerialClose w in
  if rc =? -1 then
    let '(_, w) := call Free w in (DEVICE_STATUS_IO, w)
  else
    let '(_, w) := call Free w in (DEVICE_STATUS_SUCCESS, w).

End Port.

End MaresDarwinAirPort.

(* ================================================================= *)
(** ** mares_darwinair.c: dump and foreach *)

Module MaresDarwinAirForeach.

Import MaresDarwinAir.

(** The calls into buffer.h and device-private.h, none of which is among
    the sources. Each one answers with a flag (the [int] of
    [dc_buffer_clear] and [dc_buffer_resize], whether [dc_buffer_new] gave
    a buffer), a status and the bytes the buffer holds afterwards (for
    [device_dump_read]) and a number (for [dc_buffer_get_size]). *)
Inductive request : Type :=
| BufferNew (capacity : Z)
| BufferClear
| BufferResize (size : Z)
| BufferGetSize
| DeviceDumpRead (size packetsize : Z)
| DeviceEventEmitDevinfo (model firmware serial : Z)
| BufferFree.

Record reply : Type := {
  rp_flag : bool;
  rp_status : device_status_t;
  rp_data : list byte;
  rp_size : Z
}.

Definition world : Type := list (request * reply).

Definition environment : Type := world -> request -> reply.





Section Foreach.

Variable env : environment.

(** [PACKETSIZE] (mares_common.h) is not among the sources. *)
Variable PACKETSIZE : Z.

Context {U : Type}.

Definition call (rq : request) (w : world) : reply * world :=
  let r := env w rq in (r, (rq, r) :: w).



End Foreach.

End MaresDarwinAirForeach.

(* ================================================================= *)
(** ** suunto_common.c: further notions for the walk *)

Module SuuntoCommonWalk.

Import SuuntoCommon.


End SuuntoCommonWalk.

(* ================================================================= *)
(** ** oceanic_veo250.c: the rest of the driver *)

Module OceanicVeo250Device.

Import Checksum OceanicVeo250.

(** The command of [oceanic_veo250_device_keepalive]. *)
Definition keepalive_command (last : Z) : list byte :=
  [x91;
   byte_of_Z (Z.land last 0xFF);
   byte_of_Z (Z.land (Z.shiftr last 8) 0xFF);
   x00].

(** The number two bytes stand for, the low one first. *)
Definition uint16_le (lo hi : byte) : Z := byte_val lo + 256 * byte_val hi.

(** Ports that were opened, and calls to close one. *)
Definition opened (w : world) : nat :=
  length (filter (fun e => match e with
                           | (SerialOpen _, r) => is_success (rp_status r)
                           | _ => false
                           end) w).

Definition closed (w : world) : nat :=
  length (filter (fun e => match fst e with
                           | SerialClose => true
                           | _ => false
                           end) w).

(** Handles that were allocated, and calls to give one back. *)
Definition allocated (w : world) : nat :=
  length (filter (fun e => match e with
                           | (DeviceAllocate, r) => rp_flag r
                           | _ => false
                           end) w).

Definition freed (w : world) : nat :=
  length (filter (fun e => match fst e with
                           | DeviceDeallocate => true
                           | _ => false
                           end) w).

(** What is held: ports opened and closed, handles allocated and given
    back. *)
Definition resources (w : world) : nat * nat * nat * nat :=
  (opened w, closed w, allocated w, freed w).

(** The requests that neither take nor release anything. *)
Definition is_io (rq : request) : bool :=
  match rq with
  | DeviceAllocate | DeviceDeallocate | SerialOpen _ | SerialClose => false
  | _ => true
  end.

(** From [w] to [w'] every port that was opened was closed and every
    handle that was allocated was given back. *)
Definition balanced (w w' : world) : Prop :=
  (opened w' + closed w = opened w + closed w')%nat
  /\ (allocated w' + freed w = allocated w + freed w')%nat.

(** The fields of the base class are left as they were. *)
Definition same_base (d d' : oceanic_veo250_device_t) : Prop :=
  base_layout d' = base_layout d
  /\ base_version d' = base_version d
  /\ base_multipage d' = base_multipage d.

Section Device.

Variable env : environment.

(** [dc_status_set_error] (common-private.h) is not among the sources:
    from the status so far and the new error it makes the status to
    return. *)
Variable dc_status_set_error : dc_status_t -> dc_status_t -> dc_status_t.

Definition oceanic_veo250_quit (w : world) : dc_status_t * world :=
  let command := [x98; x00] in
  let '(r, w) := call env (SerialWrite command) w in
  if negb (is_success (rp_status r)) then (rp_status r, w)
  else (DC_STATUS_SUCCESS, w).

Definition oceanic_veo250_device_close (w : world) : dc_status_t * world :=
  let status := DC_STATUS_SUCCESS in
  let '(_, w) := oceanic_veo250_quit w in
  let '(r, w) := call env SerialClose w in
  if negb (is_success (rp_status r)) then
    (dc_status_set_error status (rp_status r), w)
  else (status, w).

(** The handle is a VEO 250 handle, so [ISINSTANCE] holds. *)
Definition oceanic_veo250_device_keepalive (device : oceanic_veo250_device_t)
    (w : world) : option (dc_status_t * world) :=
  let answer := [x00; x00] in
  let command := keepalive_command (last device) in
  match oceanic_veo250_transfer env command 4 answer 2 w with
  | None => None
  | Some (rc, answer, w) =>
    if negb (is_success rc) then Some (rc, w)
    else if negb (Byte.eqb (byte_at answer 0) NAK) then
      Some (DC_STATUS_PROTOCOL, w)
    else Some (DC_STATUS_SUCCESS, w)
  end.

End Device.

End OceanicVeo250Device.

(* ================================================================= *)
(** * Properties *)

(** ** Bytes, buffers and events *)

Lemma u32_small (z : Z) : 0 <= z < 4294967296 -> u32 z = z.
Proof. apply Z.mod_small. Qed.

Lemma u32_range (z : Z) : 0 <= u32 z < 4294967296.
Proof. apply Z.mod_pos_bound. lia. Qed.

Lemma byte_eqb_eq (a b : byte) : Byte.eqb a b = true <-> a = b.
Proof.
  split; [apply Byte.byte_dec_bl | apply Byte.byte_dec_lb].
Qed.

Lemma bytes_eqb_eq (a b : list byte) : bytes_eqb a b = true <-> a = b.
Proof.
  revert b; induction a as [|x a IH]; intros [|y b]; simpl; split; intro H;
    try reflexivity; try discriminate.
  - apply andb_true_iff in H as [Hx Hr].
    apply byte_eqb_eq in Hx. apply IH in Hr. congruence.
  - injection H as -> ->. apply andb_true_iff; split.
    + now apply byte_eqb_eq.
    + now apply IH.
Qed.

Lemma memcmp_eq_true (a b : list byte) (n : nat) :
  memcmp_eq a b n = true <-> firstn n a = firstn n b.
Proof. unfold memcmp_eq. apply bytes_eqb_eq. Qed.

Lemma memcmp_eq_false (a b : list byte) (n : nat) :
  memcmp_eq a b n = false <-> firstn n a <> firstn n b.
Proof.
  rewrite <- memcmp_eq_true. destruct (memcmp_eq a b n); split; congruence.
Qed.

Lemma slice_length (data : list byte) (off len : Z) :
  0 <= off -> 0 <= len -> off + len <= Z.of_nat (length data) ->
  length (slice data off len) = Z.to_nat len.
Proof.
  intros. unfold slice. rewrite length_firstn, length_skipn. lia.
Qed.

Lemma byte_val_range (b : byte) : 0 <= byte_val b < 256.
Proof.
  unfold byte_val. pose proof (Byte.to_N_bounded b). lia.
Qed.

Lemma byte_val_inj (a b : byte) : byte_val a = byte_val b -> a = b.
Proof.
  unfold byte_val. intro H. apply N2Z.inj in H.
  pose proof (Byte.of_to_N a) as Ha. rewrite H, Byte.of_to_N in Ha.
  congruence.
Qed.

Lemma stop_is_last_split (tr : list event) :
  stop_is_last tr ->
  forall pre r size post, tr = pre ++ Delivered r size 0 :: post -> post = [].
Proof.
  induction tr as [|e tr IH]; intros H pre r size post E.
  - destruct pre; discriminate.
  - destruct H as [He Ht]. destruct pre as [|e' pre]; simpl in E.
    + injection E as -> ->. apply He. reflexivity.
    + injection E as -> E. eapply IH; eauto.
Qed.

(* ================================================================= *)
(** ** mares_darwinair.c: the indexed logbook with its profile ring *)

Module MaresDarwinAirTheory.

Import MaresDarwinAir.

Section Body.

Context {U : Type}.
Variable l : mares_darwinair_layout_t.
Variable fp : list byte.
Variable data : list byte.
Variable last : Z.
Variable callback : option (@dive_callback_t U).

(** The five ways through the loop body. *)
Inductive body_spec (s : loop_state)
  : flow loop_state (device_status_t * U) -> Prop :=
| body_break :
    next_dive l data last (ls_i s) (ls_current s) (ls_remaining s) = None ->
    body_spec s (Break s)
| body_match d :
    next_dive l data last (ls_i s) (ls_current s) (ls_remaining s) = Some d ->
    memcmp_eq (dive_record l data d) fp 6 = true ->
    body_spec s (Return [Assembled (dive_record l data d)]
                        (DEVICE_STATUS_SUCCESS, ls_userdata s))
| body_skip d :
    next_dive l data last (ls_i s) (ls_current s) (ls_remaining s) = Some d ->
    memcmp_eq (dive_record l data d) fp 6 = false ->
    callback = None ->
    body_spec s (Next [Assembled (dive_record l data d)]
                      (advance s d (ls_userdata s)))
| body_stop d cb u :
    next_dive l data last (ls_i s) (ls_current s) (ls_remaining s) = Some d ->
    memcmp_eq (dive_record l data d) fp 6 = false ->
    callback = Some cb ->
    cb (dive_record l data d) (u32 (rb_logbook_size l + dv_length d))
       (slice (dive_record l data d) 0 6) 6 (ls_userdata s) = (0, u) ->
    body_spec s (Return [Assembled (dive_record l data d);
                         Delivered (dive_record l data d)
                                   (u32 (rb_logbook_size l + dv_length d)) 0]
                        (DEVICE_STATUS_SUCCESS, u))
| body_deliver d cb rc u :
    next_dive l data last (ls_i s) (ls_current s) (ls_remaining s) = Some d ->
    memcmp_eq (dive_record l data d) fp 6 = false ->
    callback = Some cb ->
    cb (dive_record l data d) (u32 (rb_logbook_size l + dv_length d))
       (slice (dive_record l data d) 0 6) 6 (ls_userdata s) = (rc, u) ->
    rc <> 0 ->
    body_spec s (Next [Assembled (dive_record l data d);
                       Delivered (dive_record l data d)
                                 (u32 (rb_logbook_size l + dv_length d)) rc]
                      (advance s d u)).

Lemma body_cases (s : loop_state) :
  body_spec s (body l fp data last callback s).
Proof.
  unfold body.
  destruct (next_dive l data last _ _ _) as [d|] eqn:Hd; [|now constructor].
  destruct (memcmp_eq _ fp 6) eqn:Hm; [now apply body_match|].
  destruct callback as [cb|] eqn:Hc; [|now apply body_skip].
  destruct (cb _ _ _ _ _) as [rc u] eqn:Hcb.
  destruct (rc =? 0) eqn:Hrc.
  - apply Z.eqb_eq in Hrc; subst rc. now apply body_stop with (cb := cb).
  - apply Z.eqb_neq in Hrc. now apply body_deliver with (cb := cb).
Qed.

End Body.

Ltac case_body l fp data last callback s :=
  destruct (body_cases l fp data last callback s)
    as [Hd|d Hd Hm|d Hd Hm Hc|d cb' u Hd Hm Hc Hcb|d cb' rc u Hd Hm Hc Hcb Hrc].

Section Loop.

Context {U : Type}.
Variable l : mares_darwinair_layout_t.
Variable fp : list byte.
Variable data : list byte.
Variable last : Z.

(** The loop always ends in success, and a "stop" from the consumer is the
    last thing that happens in it. *)
Lemma loop_stop_is_last (callback : option (@dive_callback_t U)) (n : nat) :
  forall s,
    stop_is_last (events_of (loop l fp data last callback n s))
    /\ status_of (loop l fp data last callback n s) = DEVICE_STATUS_SUCCESS.
Proof.
  induction n as [|n IH]; intro s; [simpl; auto|].
  cbn [loop]. case_body l fp data last callback s.
  - simpl; auto.
  - simpl; auto.
  - specialize (IH (advance s d (ls_userdata s))).
    destruct (loop _ _ _ _ _ n _) as [[rc tr] u']. simpl in *.
    intuition.
  - simpl. intuition.
  - specialize (IH (advance s d u)).
    destruct (loop _ _ _ _ _ n _) as [[rc' tr] u']. simpl in *.
    intuition.
Qed.

(** If the record assembled at position [N] matches the fingerprint, the
    loop ended there: the records before it were delivered, it was not. *)
Lemma loop_fingerprint (cb : @dive_callback_t U) (n : nat) :
  forall s N r,
    nth_error (assembled (events_of (loop l fp data last (Some cb) n s))) N
    = Some r ->
    firstn 6 r = firstn 6 fp ->
    delivered (events_of (loop l fp data last (Some cb) n s))
    = firstn N (assembled (events_of (loop l fp data last (Some cb) n s)))
    /\ length (assembled (events_of (loop l fp data last (Some cb) n s)))
       = S N.
Proof.
  induction n as [|n IH]; intros s N r HN Hr.
  - destruct N; discriminate.
  - revert HN. cbn [loop]. case_body l fp data last (Some cb) s.
    + destruct N; discriminate.
    + simpl. destruct N as [|[|N]]; try discriminate. auto.
    + discriminate.
    + simpl. destruct N as [|[|N]]; try discriminate.
      intro E; injection E as <-.
      apply memcmp_eq_false in Hm. contradiction.
    + specialize (IH (advance s d u)).
      destruct (loop _ _ _ _ _ n _) as [[rc' tr] u']. simpl in *.
      destruct N as [|N].
      * intro E; injection E as <-.
        apply memcmp_eq_false in Hm. contradiction.
      * intro E. destruct (IH N r E Hr) as [Hdel Hlen].
        unfold events_of in *; simpl in *. rewrite Hdel, Hlen. auto.
Qed.

(** Without a record that matches the fingerprint, the loop delivers
    the dives of the walk one after the other, all of them unless the
    consumer stops it. *)
Lemma loop_without_match (cb : @dive_callback_t U) (n : nat) :
  forall s,
    Forall (fun r => firstn 6 r <> firstn 6 fp)
           (walk l data last n (ls_i s) (ls_current s) (ls_remaining s)) ->
    exists rest,
      walk l data last n (ls_i s) (ls_current s) (ls_remaining s)
      = delivered (events_of (loop l fp data last (Some cb) n s)) ++ rest
      /\ (rest = [] \/
          exists pre r size,
            events_of (loop l fp data last (Some cb) n s)
            = pre ++ [Delivered r size 0]).
Proof.
  induction n as [|n IH]; intros s Hall.
  - exists []. split; [reflexivity | now left].
  - revert Hall. cbn [loop walk].
    case_body l fp data last (Some cb) s; rewrite Hd; intro Hall.
    + exists []. split; [reflexivity | now left].
    + apply Forall_inv in Hall. apply memcmp_eq_true in Hm. contradiction.
    + discriminate.
    + eexists. split; [reflexivity|]. right.
      exists [Assembled (dive_record l data d)]. do 2 eexists. reflexivity.
    + apply Forall_inv_tail in Hall.
      destruct (IH (advance s d u) Hall) as (rest & Hw & Hrest).
      change (walk l data last n (u32 (ls_i s + 1)) (dv_current d)
                   (u32 (ls_remaining s - dv_length d)))
        with (walk l data last n (ls_i (advance s d u))
                   (ls_current (advance s d u)) (ls_remaining (advance s d u))).
      destruct (loop _ _ _ _ _ n _) as [[rc' tr] u'].
      unfold events_of in *; simpl in *.
      exists rest. split; [now rewrite Hw|].
      destruct Hrest as [->|(pre & r & size & ->)]; [now left|right].
      exists (Assembled (dive_record l data d)
              :: Delivered (dive_record l data d)
                           (u32 (rb_logbook_size l + dv_length d)) rc :: pre).
      do 2 eexists. reflexivity.
Qed.

End Loop.

(** *** The ring arithmetic *)

Section Ring.

Context {U : Type}.
Variable l : mares_darwinair_layout_t.
Variable fp : list byte.
Variable data : list byte.
Variable last : Z.
Variable callback : option (@dive_callback_t U).
Variable eop : Z.

Hypothesis Hl : layout_ok l.

Lemma next_dive_ring (i current remaining : Z) (d : dive) :
  rb_profile_begin l <= current <= rb_profile_end l ->
  0 <= remaining <= rb_profile_end l - rb_profile_begin l ->
  next_dive l data last i current remaining = Some d ->
  0 <= dv_length d <= remaining
  /\ u32 (remaining - dv_length d) = remaining - dv_length d
  /\ u32 (rb_logbook_size l + dv_length d) = rb_logbook_size l + dv_length d
  /\ Forall (span_in_ring l) (dv_spans d)
  /\ rb_profile_begin l <= dv_current d <= rb_profile_end l.
Proof.
  destruct Hl as (Hbe & Hend & Hsz & Hbuf). intros Hc Hr. unfold next_dive.
  set (nsamples := array_uint16_be data _).
  set (len := u32 (nsamples * samplesize l)).
  pose proof (u32_range (nsamples * samplesize l)) as Hlen. fold len in Hlen.
  destruct (_ || _) eqn:Hguard; [discriminate|].
  apply orb_false_iff in Hguard as [_ Hle]. apply Z.ltb_ge in Hle.
  rewrite (u32_small (rb_profile_begin l + len)) by lia.
  destruct (current <? _) eqn:Hwrap.
  - apply Z.ltb_lt in Hwrap.
    rewrite (u32_small (current - rb_profile_begin l)) by lia.
    rewrite (u32_small (len - _)) by lia.
    rewrite (u32_small (rb_profile_end l - _)) by lia.
    intro E; injection E as <-. cbn [dv_length dv_spans dv_current].
    rewrite !u32_small by lia.
    repeat split; try lia.
    repeat constructor; unfold span_in_ring; cbn [fst snd]; lia.
  - apply Z.ltb_ge in Hwrap.
    rewrite (u32_small (current - len)) by lia.
    intro E; injection E as <-. cbn [dv_length dv_spans dv_current].
    rewrite !u32_small by lia.
    repeat split; try lia.
    repeat constructor; unfold span_in_ring; cbn [fst snd]; lia.
Qed.

Lemma advance_ring_inv (s : loop_state) (d : dive) (u : U) :
  ring_inv l s ->
  next_dive l data last (ls_i s) (ls_current s) (ls_remaining s) = Some d ->
  ring_inv l (advance s d u).
Proof.
  intros [Hc Hr] Hd.
  destruct (next_dive_ring _ _ _ _ Hc Hr Hd) as (H1 & H2 & _ & _ & H5).
  unfold ring_inv, advance; cbn [ls_current ls_remaining]. rewrite H2. lia.
Qed.

Hypothesis Heop : rb_profile_begin l <= eop < rb_profile_end l.

Lemma reachable_ring_inv (s : loop_state) :
  reachable l fp data last callback eop s -> ring_inv l s.
Proof.
  induction 1 as [u|s evs s' Hs IH Hb].
  - destruct Hl as (Hbe & Hend & Hsz & Hbuf).
    unfold ring_inv; cbn. rewrite u32_small by lia. lia.
  - revert Hb. case_body l fp data last callback s; try discriminate;
      intro E; injection E as _ <-; now apply advance_ring_inv.
Qed.

Lemma loop_profile_bytes (n : nat) :
  forall s, ring_inv l s ->
    profile_bytes l (events_of (loop l fp data last callback n s))
    <= ls_remaining s.
Proof.
  induction n as [|n IH]; intros s Hinv;
    [destruct Hinv as [_ Hr]; cbn; lia|].
  cbn [loop]. pose proof Hinv as [Hcur Hrem].
  case_body l fp data last callback s; try (cbn; lia);
    destruct (next_dive_ring _ _ _ _ Hcur Hrem Hd) as (H1 & H2 & H3 & _ & H5).
  - specialize (IH _ (advance_ring_inv s d (ls_userdata s) Hinv Hd)).
    destruct (loop _ _ _ _ _ n _) as [[rc' tr] u'].
    unfold events_of in *; cbn in *. lia.
  - unfold events_of; cbn. lia.
  - specialize (IH _ (advance_ring_inv s d u Hinv Hd)).
    destruct (loop _ _ _ _ _ n _) as [[rc' tr] u'].
    unfold events_of in *; cbn in *. lia.
Qed.

End Ring.

(** *** Scenario 1 *)

Section Scenario1.

Variable data : list byte.
Hypothesis Hsize : length data = Z.to_nat (memsize mares_darwinair_layout).
Hypothesis Hn0 : array_uint16_be data (0x0100 + 6) = 10.
Hypothesis Hn49 : array_uint16_be data (0x0100 + 49 * 60 + 6) = 0xFFFF.

Lemma scenario_first_dive :
  next_dive mares_darwinair_layout data 0 0 0x0CC5 (u32 (0x3FFF - 0x0CC0))
  = Some {| dv_offset := 0x0100; dv_length := 30;
            dv_spans := [(0x3FFF - 25, 25); (0x0CC0, 5)];
            dv_current := 0x3FFF - 25 |}.
Proof.
  unfold next_dive.
  cbn [rb_logbook_count rb_logbook_offset rb_logbook_size samplesize
       rb_profile_begin rb_profile_end mares_darwinair_layout].
  change (u32 (256 + u32 (u32 (50 + 0 - 0) mod 50 * 60))) with 256.
  rewrite Hn0. reflexivity.
Qed.

Lemma scenario_second_dive (current remaining : Z) :
  next_dive mares_darwinair_layout data 0 (u32 (0 + 1)) current remaining
  = None.
Proof.
  unfold next_dive.
  cbn [rb_logbook_count rb_logbook_offset rb_logbook_size samplesize
       rb_profile_begin rb_profile_end mares_darwinair_layout].
  change (u32 (256 + u32 (u32 (50 + 0 - u32 (0 + 1)) mod 50 * 60)))
    with (256 + 49 * 60).
  rewrite Hn49. reflexivity.
Qed.

Lemma scenario_record_length :
  length (slice data 0x0100 60
          ++ slice data (0x3FFF - 25) 25 ++ slice data 0x0CC0 5) = 90%nat.
Proof.
  rewrite !length_app.
  rewrite !slice_length; rewrite ?Hsize; cbn; lia.
Qed.

End Scenario1.

(** *** Whole extractions *)

Section Extraction.

Context {U : Type}.

(** C1. On an image of the Darwin Air whose end-of-profile pointer is
    [0x0CC5], whose last logbook index is 0, whose entry 0 counts ten
    samples and whose entry 49 (the next one the walk visits) is unused,
    and with a fingerprint that differs from the start of entry 0, the
    extractor hands the consumer one record and no more. The record has
    90 bytes: the 60 bytes of the logbook slot at [0x0100], then the 25
    bytes below [rb_profile_end], then the 5 bytes from [rb_profile_begin]
    up to [0x0CC5]. *)
Theorem extract_scenario_1
    (data fp : list byte) (size : Z) (cb : @dive_callback_t U) (u : U) :
  let device := {| layout := mares_darwinair_layout; fingerprint := fp |} in
  let record := slice data 0x0100 60
                ++ slice data (0x3FFF - 25) 25 ++ slice data 0x0CC0 5 in
  length data = Z.to_nat (memsize mares_darwinair_layout) ->
  array_uint16_be data 0x8A = 0x0CC5 ->
  byte_val (byte_at data 0x8C) = 0 ->
  array_uint16_be data (0x0100 + 6) = 10 ->
  array_uint16_be data (0x0100 + 49 * 60 + 6) = 0xFFFF ->
  firstn 6 record <> firstn 6 fp ->
  length record = 90%nat
  /\ exists rc u',
      cb record 90 (slice record 0 6) 6 u = (rc, u')
      /\ mares_darwinair_extract_dives
           (Some (MaresDarwinAir device)) data size (Some cb) u true
         = (DEVICE_STATUS_SUCCESS,
            [Assembled record; Delivered record 90 rc], u').
Proof.
  cbv zeta. intros Hsize Heop Hlast Hn0 Hn49 Hfp.
  split; [apply (scenario_record_length data Hsize)|].
  destruct (cb _ 90 _ 6 u) as [rc u'] eqn:Hcb. exists rc, u'.
  split; [reflexivity|].
  unfold mares_darwinair_extract_dives.
  cbn [device_is_mares_darwinair negb layout fingerprint].
  rewrite Heop, Hlast.
  change (Z.to_nat (rb_logbook_count mares_darwinair_layout)) with 50%nat.
  cbn [rb_profile_begin rb_profile_end rb_logbook_count mares_darwinair_layout
       Z.ltb Z.leb Z.compare Pos.compare Pos.compare_cont orb negb].
  cbn [loop]. unfold body at 1. cbn [ls_i ls_current ls_remaining ls_userdata].
  rewrite (scenario_first_dive data Hn0).
  unfold dive_record.
  cbn [dv_offset dv_length dv_spans dv_current flat_map fst snd
       rb_logbook_size mares_darwinair_layout].
  rewrite app_nil_r.
  apply memcmp_eq_false in Hfp. rewrite Hfp.
  change (u32 (60 + 30)) with 90. rewrite Hcb.
  destruct (rc =? 0) eqn:Hrc; [reflexivity|].
  unfold body, advance. cbn [ls_i ls_current ls_remaining ls_userdata].
  rewrite (scenario_second_dive data Hn49). reflexivity.
Qed.

(** C3. Whenever the record assembled at position [N] of an extraction
    starts with the six bytes of the stored fingerprint, the extraction
    returned success, the records delivered are the [N] records assembled
    before it, in the order of the walk, and it is the last record that
    was assembled: it was not delivered and nothing older was looked at. *)
Theorem extract_fingerprint_boundary
    (device : mares_darwinair_device_t) (data : list byte) (size : Z)
    (cb : @dive_callback_t U) (u : U) (malloc_ok : bool)
    (N : nat) (r : list byte) :
  let run := mares_darwinair_extract_dives
               (Some (MaresDarwinAir device)) data size (Some cb) u malloc_ok in
  nth_error (assembled (events_of run)) N = Some r ->
  firstn 6 r = firstn 6 (fingerprint device) ->
  status_of run = DEVICE_STATUS_SUCCESS
  /\ delivered (events_of run) = firstn N (assembled (events_of run))
  /\ length (assembled (events_of run)) = S N.
Proof.
  cbv zeta. unfold mares_darwinair_extract_dives.
  cbn [device_is_mares_darwinair negb].
  destruct (_ || _); [destruct N; discriminate|].
  destruct (rb_logbook_count _ <=? _); [destruct N; discriminate|].
  destruct (negb malloc_ok); [destruct N; discriminate|].
  intros HN Hr. split.
  - apply loop_stop_is_last.
  - eapply loop_fingerprint; eauto.
Qed.

(** C4, as the code has it. A fingerprint in its default state, or
    cleared by [set_fingerprint] with size 0, is six zero bytes. Then, on
    an image none of whose dive records starts with six zero bytes, the
    extraction delivers the dive records of the image in order, and all
    of them unless the consumer answers "stop". *)
Theorem extract_cleared_fingerprint
    (device device0 : mares_darwinair_device_t) (data0 : list byte)
    (data : list byte) (size : Z) (cb : @dive_callback_t U) (u : U) :
  let run := mares_darwinair_extract_dives
               (Some (MaresDarwinAir device)) data size (Some cb) u true in
  device = mares_darwinair_device_default
  \/ device = snd (mares_darwinair_device_set_fingerprint device0 data0 0) ->
  Forall (fun r => firstn 6 r <> repeat x00 6)
         (image_dives (layout device) data) ->
  exists rest,
    image_dives (layout device) data = delivered (events_of run) ++ rest
    /\ (rest = [] \/
        exists pre r sz, events_of run = pre ++ [Delivered r sz 0]).
Proof.
  cbv zeta. intros Hdev.
  assert (Hfp : fingerprint device = repeat x00 6)
    by (destruct Hdev as [->| ->]; reflexivity).
  unfold image_dives, mares_darwinair_extract_dives.
  cbn [device_is_mares_darwinair negb].
  destruct (_ || _); [exists []; split; [reflexivity | now left]|].
  destruct (rb_logbook_count _ <=? _);
    [exists []; split; [reflexivity | now left]|].
  cbn [negb]. rewrite Hfp. intro Hall.
  apply (loop_without_match (layout device) (repeat x00 6) data _ cb _
           {| ls_i := 0; ls_current := _; ls_remaining := _;
              ls_userdata := u |}).
  exact Hall.
Qed.

(** C7. If the end-of-profile pointer read from the image is outside
    [[rb_profile_begin, rb_profile_end)], or the last logbook index read
    from it is not below [rb_logbook_count], the extraction fails with the
    error status, and the consumer was not called. *)
Theorem extract_invalid_pointers
    (device : mares_darwinair_device_t) (data : list byte) (size : Z)
    (callback : option (@dive_callback_t U)) (u : U) (malloc_ok : bool) :
  let l := layout device in
  let eop := array_uint16_be data 0x8A in
  let last := byte_val (byte_at data 0x8C) in
  eop < rb_profile_begin l \/ rb_profile_end l <= eop
  \/ rb_logbook_count l <= last ->
  mares_darwinair_extract_dives
    (Some (MaresDarwinAir device)) data size callback u malloc_ok
  = (DEVICE_STATUS_ERROR, [], u).
Proof.
  cbv zeta. intro H. unfold mares_darwinair_extract_dives.
  cbn [device_is_mares_darwinair negb].
  destruct (_ || _) eqn:E1; [reflexivity|].
  destruct (rb_logbook_count _ <=? _) eqn:E2; [reflexivity|].
  apply orb_false_iff in E1 as [Ea Eb].
  apply Z.ltb_ge in Ea. apply Z.leb_gt in Eb. apply Z.leb_gt in E2. lia.
Qed.

(** C9, for the extractor that asks the consumer. When the callback
    answers 0 to a record, nothing happens after that call: no record is
    assembled, none is delivered, and the extraction returns success. *)
Theorem extract_consumer_stop
    (abstract : option device_t) (data : list byte) (size : Z)
    (callback : option (@dive_callback_t U)) (u : U) (malloc_ok : bool)
    (pre post : list event) (r : list byte) (sz : Z) :
  let run := mares_darwinair_extract_dives
               abstract data size callback u malloc_ok in
  events_of run = pre ++ Delivered r sz 0 :: post ->
  post = [] /\ status_of run = DEVICE_STATUS_SUCCESS.
Proof.
  cbv zeta. unfold mares_darwinair_extract_dives.
  destruct abstract as [[device|]|]; cbn [device_is_mares_darwinair negb];
    try (intro E; destruct pre; discriminate).
  destruct (_ || _); [intro E; destruct pre; discriminate|].
  destruct (rb_logbook_count _ <=? _); [intro E; destruct pre; discriminate|].
  destruct (negb malloc_ok); [intro E; destruct pre; discriminate|].
  intro E. split.
  - eapply stop_is_last_split; [|exact E]. apply loop_stop_is_last.
  - apply loop_stop_is_last.
Qed.

(** C10. Let the layout be sound and the end-of-profile pointer valid.
    In every state in which the loop body is entered, [current] lies in
    [[rb_profile_begin, rb_profile_end]] and [remaining] in
    [[0, rb_profile_end - rb_profile_begin]]; a dive the body copies there
    has [length <= remaining], so that [remaining - length] does not wrap,
    and each of its [memcpy]s of profile bytes reads inside
    [[rb_profile_begin, rb_profile_end)]. The profile bytes delivered by an
    extraction are at most [rb_profile_end - rb_profile_begin]. *)
Theorem extract_ring_invariant
    (device : mares_darwinair_device_t) (data : list byte) (size : Z)
    (callback : option (@dive_callback_t U)) (u : U) (malloc_ok : bool) :
  let l := layout device in
  let eop := array_uint16_be data 0x8A in
  let last := byte_val (byte_at data 0x8C) in
  layout_ok l ->
  rb_profile_begin l <= eop < rb_profile_end l ->
  (forall s : loop_state,
      reachable l (fingerprint device) data last callback eop s ->
      ring_inv l s
      /\ forall d,
          next_dive l data last (ls_i s) (ls_current s) (ls_remaining s)
          = Some d ->
          dv_length d <= ls_remaining s
          /\ u32 (ls_remaining s - dv_length d) = ls_remaining s - dv_length d
          /\ Forall (span_in_ring l) (dv_spans d))
  /\ profile_bytes l
       (events_of (mares_darwinair_extract_dives
                     (Some (MaresDarwinAir device)) data size callback u
                     malloc_ok))
     <= rb_profile_end l - rb_profile_begin l.
Proof.
  cbv zeta. intros Hl Heop. split.
  - intros s Hs.
    pose proof (reachable_ring_inv _ _ _ _ _ _ Hl Heop s Hs) as Hinv.
    split; [exact Hinv|]. intros d Hd. destruct Hinv as [Hc Hr].
    destruct (next_dive_ring _ _ _ Hl _ _ _ _ Hc Hr Hd)
      as (H1 & H2 & _ & H4 & _).
    repeat split; try assumption; lia.
  - unfold mares_darwinair_extract_dives.
    cbn [device_is_mares_darwinair negb].
    pose proof Hl as (Hbe & Hend & Hsz & Hbuf).
    destruct (_ || _); [cbn; lia|].
    destruct (rb_logbook_count _ <=? _); [cbn; lia|].
    destruct (negb malloc_ok); [cbn; lia|].
    etransitivity.
    + apply loop_profile_bytes; [exact Hl|].
      unfold ring_inv; cbn [ls_current ls_remaining].
      rewrite u32_small by lia. lia.
    + cbn [ls_remaining]. rewrite u32_small by lia. lia.
Qed.

End Extraction.

(** *** The theorems at work on the images *)

Lemma extract_scenario_1_witness :
  let device := {| layout := mares_darwinair_layout;
                   fingerprint := repeat x00 6 |} in
  let record := slice one_dive_image 0x0100 60
                ++ slice one_dive_image (0x3FFF - 25) 25
                ++ slice one_dive_image 0x0CC0 5 in
  length record = 90%nat
  /\ exists rc u',
      keep_going record 90 (slice record 0 6) 6 tt = (rc, u')
      /\ mares_darwinair_extract_dives
           (Some (MaresDarwinAir device)) one_dive_image 0x4000
           (Some keep_going) tt true
         = (DEVICE_STATUS_SUCCESS,
            [Assembled record; Delivered record 90 rc], u').
Proof.
  apply (extract_scenario_1 one_dive_image (repeat x00 6) 0x4000 keep_going tt);
    try (vm_compute; reflexivity).
  vm_compute. discriminate.
Defined.

(** The record that Scenario 1 delivers, byte by byte. *)
Example scenario_1_record :
  delivered (events_of (mares_darwinair_extract_dives
                          (Some (MaresDarwinAir mares_darwinair_device_default))
                          one_dive_image 0x4000 (Some keep_going) tt true))
  = [ [x0b; x05; x1e; x0a; x2d; x07; x00; x0a] ++ repeat x00 52
      ++ [xc1; xc2; xc3; xc4; xc5; xc6; xc7; xc8; xc9; xca; xcb; xcc; xcd;
          xce; xcf; xd0; xd1; xd2; xd3; xd4; xd5; xd6; xd7; xd8; xd9]
      ++ [xe1; xe2; xe3; xe4; xe5] ].
Proof. vm_compute. reflexivity. Qed.

Lemma extract_fingerprint_boundary_witness :
  let device := {| layout := mares_darwinair_layout;
                   fingerprint := older_fingerprint |} in
  let run := mares_darwinair_extract_dives
               (Some (MaresDarwinAir device)) two_dive_image 0x4000
               (Some keep_going) tt true in
  status_of run = DEVICE_STATUS_SUCCESS
  /\ delivered (events_of run) = firstn 1 (assembled (events_of run))
  /\ length (assembled (events_of run)) = 2%nat.
Proof.
  apply (extract_fingerprint_boundary
           {| layout := mares_darwinair_layout;
              fingerprint := older_fingerprint |}
           two_dive_image 0x4000 keep_going tt true 1
           ([x0b; x05; x1e; x0a; x2d; x07; x00; x01] ++ repeat x00 52
            ++ [xa1; xa2; xa3]));
    vm_compute; reflexivity.
Defined.

Lemma extract_cleared_fingerprint_witness :
  let run := mares_darwinair_extract_dives
               (Some (MaresDarwinAir mares_darwinair_device_default))
               one_dive_image 0x4000 (Some keep_going) tt true in
  exists rest,
    image_dives mares_darwinair_layout one_dive_image
    = delivered (events_of run) ++ rest
    /\ (rest = [] \/
        exists pre r sz, events_of run = pre ++ [Delivered r sz 0]).
Proof.
  apply (extract_cleared_fingerprint
           mares_darwinair_device_default mares_darwinair_device_default []
           one_dive_image 0x4000 keep_going tt).
  - left. reflexivity.
  - vm_compute. repeat constructor. discriminate.
Defined.

(** C4 as the spec has it fails: the cleared fingerprint is compared like
    any other. On [blank_image] the newest of fifty dive records starts
    with six zero bytes, the extraction stops there, and the consumer,
    which never asks to stop, gets nothing. *)
Lemma cleared_fingerprint_stops_early :
  let device :=
    snd (mares_darwinair_device_set_fingerprint
           mares_darwinair_device_default [] 0) in
  let run := mares_darwinair_extract_dives
               (Some (MaresDarwinAir device)) blank_image 0x4000
               (Some keep_going) tt true in
  length (image_dives mares_darwinair_layout blank_image) = 50%nat
  /\ delivered (events_of run) = []
  /\ delivered (events_of run)
     <> image_dives mares_darwinair_layout blank_image.
Proof.
  cbv zeta. split; [vm_compute; reflexivity|].
  split; [vm_compute; reflexivity|].
  intro H. apply (f_equal (@length _)) in H. vm_compute in H. discriminate.
Qed.

Lemma extract_invalid_pointers_witness :
  mares_darwinair_extract_dives
    (Some (MaresDarwinAir mares_darwinair_device_default))
    erased_image 0x4000 (Some keep_going) tt true
  = (DEVICE_STATUS_ERROR, [], tt).
Proof.
  apply (extract_invalid_pointers mares_darwinair_device_default erased_image
           0x4000 (Some keep_going) tt true).
  left. vm_compute. reflexivity.
Defined.

Lemma extract_consumer_stop_witness :
  let run := mares_darwinair_extract_dives
               (Some (MaresDarwinAir mares_darwinair_device_default))
               two_dive_image 0x4000 (Some stop_at_once) tt true in
  @nil event = [] /\ status_of run = DEVICE_STATUS_SUCCESS.
Proof.
  apply (extract_consumer_stop
           (Some (MaresDarwinAir mares_darwinair_device_default))
           two_dive_image 0x4000 (Some stop_at_once) tt true
           [Assembled ([x0b; x05; x1f; x09; x0f; x03; x00; x02]
                       ++ repeat x00 52
                       ++ [xb1; xb2; xb3; xb4; xb5; xb6])]
           []
           ([x0b; x05; x1f; x09; x0f; x03; x00; x02] ++ repeat x00 52
            ++ [xb1; xb2; xb3; xb4; xb5; xb6])
           66).
  vm_compute. reflexivity.
Defined.

Lemma extract_ring_invariant_witness :
  let l := mares_darwinair_layout in
  let last := byte_val (byte_at two_dive_image 0x8C) in
  (forall s : @loop_state unit,
      reachable l (repeat x00 6) two_dive_image last (Some keep_going)
                (array_uint16_be two_dive_image 0x8A) s ->
      ring_inv l s
      /\ forall d,
          next_dive l two_dive_image last
                    (ls_i s) (ls_current s) (ls_remaining s) = Some d ->
          dv_length d <= ls_remaining s
          /\ u32 (ls_remaining s - dv_length d) = ls_remaining s - dv_length d
          /\ Forall (span_in_ring l) (dv_spans d))
  /\ profile_bytes l
       (events_of (mares_darwinair_extract_dives
                     (Some (MaresDarwinAir mares_darwinair_device_default))
                     two_dive_image 0x4000 (Some keep_going) tt true))
     <= rb_profile_end l - rb_profile_begin l.
Proof.
  apply (extract_ring_invariant mares_darwinair_device_default two_dive_image
           0x4000 (Some keep_going) tt true).
  - unfold layout_ok. cbn. lia.
  - vm_compute. split; [discriminate | reflexivity].
Defined.

End MaresDarwinAirTheory.

(* ================================================================= *)
(** ** suunto_common.c: the ring delimited by markers *)

Module SuuntoCommonTheory.

Import SuuntoCommon.

Section Walk.

Context {U : Type}.
Variable ringbuffer_decrement : Z -> Z -> Z -> Z -> Z.
Variable ringbuffer_distance : Z -> Z -> Z -> Z -> Z.
Variable data : list byte.
Variables begin end_ eop peek : Z.
Variable callback : option (@dive_callback_t U).

Hypothesis Hbegin : 0 <= begin.
Hypothesis Heop : begin <= eop < end_.
Hypothesis Hend : end_ < 4294967296.
Hypothesis Hmarker : byte_at data eop = x82.

Local Abbreviation body :=
  (body ringbuffer_decrement ringbuffer_distance data begin end_ peek callback).
Local Abbreviation loop :=
  (loop ringbuffer_decrement ringbuffer_distance data begin end_ peek callback).

(** A step back stays in the ring; it goes to the byte before, or from
    [begin] to the last byte. *)
Lemma step_back_ring (current : Z) :
  begin <= current < end_ ->
  begin <= step_back begin end_ current < end_
  /\ (step_back begin end_ current = current - 1
      \/ step_back begin end_ current = current - 1 + (end_ - begin)).
Proof.
  intro Hc. unfold step_back. destruct (current =? begin) eqn:E.
  - apply Z.eqb_eq in E. rewrite u32_small by lia. lia.
  - apply Z.eqb_neq in E. rewrite u32_small by lia. lia.
Qed.

(** Either the body leaves the loop on an end-of-profile marker, or it
    goes on from a cursor that is no such marker. *)
Lemma body_step (s : loop_state) :
  (exists s', body s = Break s'
              /\ ls_current s' = step_back begin end_ (ls_current s)
              /\ byte_at data (ls_current s') = x82)
  \/ (exists evs s', body s = Next evs s'
                     /\ ls_current s' = step_back begin end_ (ls_current s)
                     /\ byte_at data (ls_current s') <> x82).
Proof.
  unfold SuuntoCommon.body.
  destruct (Byte.eqb (byte_at data (step_back begin end_ (ls_current s))) x82)
    eqn:E.
  - left. eexists. split; [reflexivity|]. split; [reflexivity|].
    apply byte_eqb_eq in E. exact E.
  - right.
    assert (Hne : byte_at data (step_back begin end_ (ls_current s)) <> x82).
    { intro H. apply byte_eqb_eq in H. congruence. }
    destruct (Byte.eqb (byte_at data _) x80).
    + destruct callback as [cb|].
      * destruct (cb _ _ _) as [rc u]. do 2 eexists. split; [reflexivity|].
        split; [reflexivity | exact Hne].
      * do 2 eexists. split; [reflexivity|]. split; [reflexivity | exact Hne].
    + do 2 eexists. split; [reflexivity|]. split; [reflexivity | exact Hne].
Qed.

(** Two positions of the ring that differ by a multiple of its size are
    the same. *)
Lemma ring_position_unique (a b q : Z) :
  begin <= a < end_ -> begin <= b < end_ ->
  a - b = q * (end_ - begin) -> a = b.
Proof.
  intros Ha Hb Hq.
  destruct (Z.lt_trichotomy q 0) as [Hq0|[Hq0|Hq0]]; nia.
Qed.

(** From a cursor that is [n] steps ahead of [eop] around the ring, the
    loop with [n] iterations left ends on an end-of-profile marker, after
    at most [n] steps. *)
Lemma loop_ends_on_marker (n : nat) :
  forall s q,
    (1 <= n)%nat ->
    begin <= ls_current s < end_ ->
    ls_current s - Z.of_nat n - eop = q * (end_ - begin) ->
    (1 <= fst (fst (loop n s)) <= n)%nat
    /\ byte_at data (ls_current (snd (loop n s))) = x82.
Proof.
  induction n as [|n IH]; intros s q Hn Hc Hq; [lia|].
  cbn [SuuntoCommon.loop].
  destruct (body_step s) as [(s' & Hb & Hs' & Hm)|(evs & s' & Hb & Hs' & Hm)];
    rewrite Hb.
  - cbn. split; [lia | exact Hm].
  - destruct (step_back_ring _ Hc) as [Hr Hstep]. rewrite <- Hs' in Hr, Hstep.
    destruct n as [|n].
    + exfalso. apply Hm.
      assert (ls_current s' = eop) as ->; [|exact Hmarker].
      destruct Hstep as [Hstep|Hstep].
      * apply (ring_position_unique _ _ q); lia.
      * apply (ring_position_unique _ _ (q + 1)); lia.
    + assert (Hq' : exists q', ls_current s' - Z.of_nat (S n) - eop
                               = q' * (end_ - begin))
        by (destruct Hstep; [exists q | exists (q + 1)]; lia).
      destruct Hq' as [q' Hq'].
      destruct (IH s' q' ltac:(lia) Hr Hq') as [Hk Hx].
      destruct (loop (S n) s') as [[k tr] s''].
      cbn in *. split; [lia | exact Hx].
Qed.

End Walk.

(** C5. With [begin <= eop < end], an end-of-profile marker at [eop] and
    a ring that fits the buffer, the walk takes at least one and at most
    [end - begin] steps, the cursor is on an end-of-profile marker when the
    loop is left, and the function returns: none of its assertions fails.
    This holds whatever the two helpers of ringbuffer.h compute. *)
Theorem suunto_walk_ends_on_marker {U : Type}
    (ringbuffer_decrement ringbuffer_distance : Z -> Z -> Z -> Z -> Z)
    (data : list byte) (begin end_ eop peek : Z)
    (callback : option (@dive_callback_t U)) (u : U) :
  let run := suunto_common_extract_dives ringbuffer_decrement
               ringbuffer_distance data begin end_ eop peek callback u in
  0 <= begin -> end_ < 4294967296 ->
  begin <= eop < end_ ->
  byte_at data eop = x82 ->
  end_ - begin <= buffer_size ->
  (1 <= ex_steps run <= Z.to_nat (end_ - begin))%nat
  /\ byte_at data (ex_current run) = x82
  /\ ex_outcome run = Returned SUUNTO_SUCCESS.
Proof.
  cbv zeta. intros Hbegin Hend Heop Hmarker Hbuf.
  unfold suunto_common_extract_dives.
  replace ((begin <=? eop) && (eop <? end_)) with true
    by (symmetry; apply andb_true_iff; split;
        [apply Z.leb_le | apply Z.ltb_lt]; lia).
  rewrite Hmarker, (u32_small (end_ - begin)) by lia.
  replace (end_ - begin <=? buffer_size) with true
    by (symmetry; apply Z.leb_le; lia).
  change (negb (Byte.eqb x82 x82)) with false. cbn [negb].
  pose proof (loop_ends_on_marker ringbuffer_decrement ringbuffer_distance
                data begin end_ eop peek callback Hbegin Heop Hend Hmarker
                (Z.to_nat (end_ - begin))
                {| ls_i := 0; ls_current := eop; ls_previous := eop;
                   ls_userdata := u |} (-1)) as H.
  cbn [ls_current] in H.
  destruct H as [Hk Hx]; try lia.
  destruct (loop _ _ _ _ _ _ _ _ _) as [[k tr] s]. cbn in *.
  rewrite Hx. cbn. repeat split; try lia.
Qed.

Lemma suunto_walk_ends_on_marker_witness :
  let run := suunto_common_extract_dives
               Ringbuffer.ringbuffer_decrement Ringbuffer.ringbuffer_distance
               two_dive_ring 0 16 10 2 (Some always_stop) tt in
  (1 <= ex_steps run <= Z.to_nat (16 - 0))%nat
  /\ byte_at two_dive_ring (ex_current run) = x82
  /\ ex_outcome run = Returned SUUNTO_SUCCESS.
Proof.
  apply (suunto_walk_ends_on_marker
           Ringbuffer.ringbuffer_decrement Ringbuffer.ringbuffer_distance
           two_dive_ring 0 16 10 2 (Some always_stop) tt);
    try reflexivity; try lia.
  unfold buffer_size. lia.
Defined.

(** What the consumer answers has no part in the walk: a consumer and
    the same consumer made to answer "go on" every time get the same
    records, after the same steps. This holds whatever the two helpers of
    ringbuffer.h compute. *)
Section Answer.

Context {U : Type}.
Variable ringbuffer_decrement : Z -> Z -> Z -> Z -> Z.
Variable ringbuffer_distance : Z -> Z -> Z -> Z -> Z.
Variable data : list byte.
Variables begin end_ peek : Z.
Variable cb : @dive_callback_t U.

Local Abbreviation loop_with c :=
  (loop ringbuffer_decrement ringbuffer_distance data begin end_ peek (Some c)).

Lemma body_ignores_answer (s : loop_state) :
  match body ringbuffer_decrement ringbuffer_distance data begin end_ peek
             (Some cb) s,
        body ringbuffer_decrement ringbuffer_distance data begin end_ peek
             (Some (insistent cb)) s with
  | Break s1, Break s2 => s1 = s2
  | Next evs1 s1, Next evs2 s2 => s1 = s2 /\ delivered evs1 = delivered evs2
  | _, _ => False
  end.
Proof.
  unfold body, insistent.
  destruct (Byte.eqb (byte_at data _) x82); [reflexivity|].
  destruct (Byte.eqb (byte_at data _) x80); [|now split].
  destruct (cb _ _ (ls_userdata s)) as [rc u]. now split.
Qed.

Lemma loop_ignores_answer (n : nat) :
  forall s,
    fst (fst (loop_with cb n s)) = fst (fst (loop_with (insistent cb) n s))
    /\ delivered (snd (fst (loop_with cb n s)))
       = delivered (snd (fst (loop_with (insistent cb) n s)))
    /\ snd (loop_with cb n s) = snd (loop_with (insistent cb) n s).
Proof.
  induction n as [|n IH]; intro s; [now cbn|].
  cbn [SuuntoCommon.loop]. pose proof (body_ignores_answer s) as Hb.
  destruct (body _ _ _ _ _ _ (Some cb) s) as [evs1 s1|s1|];
    destruct (body _ _ _ _ _ _ (Some (insistent cb)) s) as [evs2 s2|s2|];
    try contradiction.
  - destruct Hb as [<- Hevs]. specialize (IH s1).
    destruct (loop_with cb n s1) as [[k tr] s1'].
    destruct (loop_with (insistent cb) n s1) as [[k' tr'] s2'].
    cbn [fst snd] in *. destruct IH as (-> & Hd & ->).
    repeat split. unfold delivered in *.
    now rewrite !flat_map_app, Hevs, Hd.
  - subst s2. now cbn.
Qed.

End Answer.

(** C9 fails for this extractor: the result of the callback is not
    looked at. On [two_dive_ring] the consumer answers "stop" to the first
    record and is handed the second one all the same. *)
Lemma suunto_ignores_consumer_stop :
  let run := suunto_common_extract_dives
               Ringbuffer.ringbuffer_decrement Ringbuffer.ringbuffer_distance
               two_dive_ring 0 16 10 2 (Some always_stop) tt in
  ex_events run
  = [Assembled [x18; x19]; Delivered [x18; x19] 2 0;
     Assembled [x14; x15; x80; x17]; Delivered [x14; x15; x80; x17] 4 0]
  /\ ~ (forall pre r sz post,
          ex_events run = pre ++ Delivered r sz 0 :: post -> post = []).
Proof.
  cbv zeta. split; [vm_compute; reflexivity|].
  intro H.
  specialize (H [Assembled [x18; x19]] [x18; x19] 2
                [Assembled [x14; x15; x80; x17];
                 Delivered [x14; x15; x80; x17] 4 0]).
  discriminate H. vm_compute. reflexivity.
Qed.

End SuuntoCommonTheory.

(* ================================================================= *)
(** ** oceanic_veo250.c: handshake, retries and checked pages *)

Module OceanicVeo250Theory.

Import Checksum OceanicVeo250.

(** *** The log *)

Lemma since_app (evs w : world) : since w (evs ++ w) = evs.
Proof.
  unfold since. rewrite length_app.
  replace (length evs + length w - length w)%nat with (length evs) by lia.
  rewrite firstn_app, firstn_all, Nat.sub_diag. cbn. apply app_nil_r.
Qed.

Lemma attempts_app (a b : world) :
  attempts (a ++ b) = (attempts a + attempts b)%nat.
Proof. unfold attempts. now rewrite filter_app, length_app. Qed.

Lemma sleeps_app (a b : world) : sleeps (a ++ b) = sleeps a ++ sleeps b.
Proof. unfold sleeps. apply flat_map_app. Qed.

Lemma retryable_spec (rc : dc_status_t) :
  negb (status_eqb rc DC_STATUS_TIMEOUT)
  && negb (status_eqb rc DC_STATUS_PROTOCOL) = negb (retryable rc).
Proof. destruct rc; reflexivity. Qed.

Lemma retryable_not_success (rc : dc_status_t) :
  is_success rc = true -> retryable rc = false.
Proof. destruct rc; cbv; congruence. Qed.

(** *** The handshake *)

Section Handshake.

Variable env : environment.
Variable command : list byte.
Variable csize : Z.

Local Abbreviation send := (oceanic_veo250_send env command csize).
Local Abbreviation attempt := (attempt env command csize).

(** A [send] asks once whether to go on, and never sleeps. *)
Lemma send_log (w : world) :
  exists evs, snd (send w) = evs ++ w
              /\ attempts evs = 1%nat /\ sleeps evs = [].
Proof.
  unfold oceanic_veo250_send, call.
  destruct (rp_flag _).
  { eexists [_]. repeat split. }
  destruct (negb (is_success (rp_status (env (_ :: _ :: w) _)))).
  { eexists [_; _; _]. repeat split. }
  destruct (negb (is_success _)).
  { eexists [_; _; _; _]. repeat split. }
  destruct (negb (Byte.eqb _ _)); eexists [_; _; _; _]; repeat split.
Qed.

Lemma attempt_log (j : nat) (w : world) :
  exists evs, snd (attempt j w) = evs ++ w
              /\ attempts evs = S j /\ sleeps evs = repeat 100 j.
Proof.
  induction j as [|j IH]; [apply send_log|].
  cbn [OceanicVeo250.attempt].
  destruct IH as (evs & He & Ha & Hs).
  destruct (attempt j w) as [rc w1]. cbn [snd] in He. subst w1.
  unfold call at 1.
  destruct (send_log ((SerialSleep 100, env (evs ++ w) (SerialSleep 100))
                      :: evs ++ w)) as (evs' & He' & Ha' & Hs').
  exists (evs' ++ (SerialSleep 100, env (evs ++ w) (SerialSleep 100)) :: evs).
  rewrite He'. split; [now rewrite <- app_assoc|].
  rewrite attempts_app, sleeps_app, Ha', Hs'. split.
  - change (attempts (_ :: evs)) with (attempts evs). now rewrite Ha.
  - change (sleeps (_ :: evs)) with (100 :: sleeps evs). now rewrite Hs.
Qed.

(** The loop, started with [nretries] and enough fuel, makes [k] tries
    with [1 <= k <= MAXRETRIES + 1 - nretries]: all but the last failed in
    a way that allows a retry, and the last one did not, unless it used
    the last retry. *)
Lemma handshake_attempts (fuel : nat) :
  forall nretries w,
    0 <= nretries <= MAXRETRIES ->
    (Z.to_nat (MAXRETRIES - nretries) < fuel)%nat ->
    exists k : nat,
      (1 <= k <= S (Z.to_nat (MAXRETRIES - nretries)))%nat
      /\ handshake env fuel command csize nretries w
         = Some (attempt (k - 1) w)
      /\ (forall j, (j < k - 1)%nat -> retryable (fst (attempt j w)) = true)
      /\ ((k < S (Z.to_nat (MAXRETRIES - nretries)))%nat ->
          retryable (fst (attempt (k - 1) w)) = false).
Proof.
  induction fuel as [|fuel IH]; intros nretries w Hn Hfuel; [lia|].
  cbn [handshake].
  destruct (send w) as [rc w1] eqn:Hsend.
  assert (Hone : forall (P : Prop),
             (1 <= S (Z.to_nat (MAXRETRIES - nretries)))%nat ->
             P ->
             (1 <= 1 <= S (Z.to_nat (MAXRETRIES - nretries)))%nat
             /\ Some (rc, w1) = Some (attempt (1 - 1) w)
             /\ (forall j, (j < 1 - 1)%nat ->
                           retryable (fst (attempt j w)) = true)
             /\ P).
  { intros P H1 HP. cbn [Nat.sub OceanicVeo250.attempt]. rewrite Hsend.
    repeat split; try lia; exact HP. }
  destruct (is_success rc) eqn:Hok.
  { exists 1%nat. apply Hone; [lia|]. intros _.
    cbn [Nat.sub OceanicVeo250.attempt]. rewrite Hsend.
    now apply retryable_not_success. }
  rewrite retryable_spec.
  destruct (retryable rc) eqn:Hretry; cbn [negb].
  2:{ exists 1%nat. apply Hone; [lia|]. intros _.
      cbn [Nat.sub OceanicVeo250.attempt]. now rewrite Hsend. }
  destruct (MAXRETRIES <=? nretries) eqn:Hmax.
  { apply Z.leb_le in Hmax. exists 1%nat. apply Hone; lia. }
  apply Z.leb_gt in Hmax.
  destruct (call env (SerialSleep 100) w1) as [r w2] eqn:Hsleep.
  rewrite u32_small by (unfold MAXRETRIES in *; lia).
  destruct (IH (nretries + 1) w2 ltac:(lia) ltac:(lia))
    as (k & Hk & Hh & Hall & Hlast).
  assert (Hshift : forall j, attempt (S j) w = attempt j w2).
  { induction j as [|j IHj].
    - cbn [OceanicVeo250.attempt]. now rewrite Hsend, Hsleep.
    - change (attempt (S (S j)) w)
        with (let '(_, w) := attempt (S j) w in
              let '(_, w) := call env (SerialSleep 100) w in send w).
      rewrite IHj. reflexivity. }
  exists (S k). replace (S k - 1)%nat with (S (k - 1)) by lia.
  rewrite Hshift. repeat split; try lia.
  - exact Hh.
  - intros [|j] Hj.
    + cbn [OceanicVeo250.attempt]. now rewrite Hsend.
    + rewrite Hshift. apply Hall. lia.
  - intro Hlt. apply Hlast. lia.
Qed.

End Handshake.

(** C2. Whatever the port answers, the handshake loop of [transfer] ends,
    after [k] tries with [1 <= k <= MAXRETRIES + 1 = 3]. Its status is that
    of try [k]. Each earlier try failed with a timeout or a protocol
    error; try [k] did not, unless it is the third. Between two tries the
    driver sleeps 100 ms, and at no other time. When try [k] failed,
    [transfer] returns its status at once; and [transfer] returns in
    every case. *)
Theorem transfer_retry_bound
    (env : environment) (command : list byte) (csize : Z)
    (answer : list byte) (asize : Z) (w : world) :
  exists k : nat,
    (1 <= k <= Z.to_nat MAXRETRIES + 1)%nat
    /\ handshake env handshake_fuel command csize 0 w
       = Some (attempt env command csize (k - 1) w)
    /\ (forall j, (j < k - 1)%nat ->
                  retryable (fst (attempt env command csize j w)) = true)
    /\ ((k < Z.to_nat MAXRETRIES + 1)%nat ->
        retryable (fst (attempt env command csize (k - 1) w)) = false)
    /\ attempts (since w (snd (attempt env command csize (k - 1) w))) = k
    /\ sleeps (since w (snd (attempt env command csize (k - 1) w)))
       = repeat 100 (k - 1)
    /\ (is_success (fst (attempt env command csize (k - 1) w)) = false ->
        oceanic_veo250_transfer env command csize answer asize w
        = Some (fst (attempt env command csize (k - 1) w), answer,
                snd (attempt env command csize (k - 1) w)))
    /\ oceanic_veo250_transfer env command csize answer asize w <> None.
Proof.
  destruct (handshake_attempts env command csize handshake_fuel 0 w)
    as (k & Hk & Hh & Hall & Hlast);
    [unfold MAXRETRIES; lia | unfold handshake_fuel, MAXRETRIES; cbn; lia|].
  change (S (Z.to_nat (MAXRETRIES - 0))) with (Z.to_nat MAXRETRIES + 1)%nat
    in Hk, Hlast.
  exists k. repeat split; try lia; try assumption.
  - destruct (attempt_log env command csize (k - 1) w) as (evs & -> & Ha & _).
    rewrite since_app, Ha. lia.
  - destruct (attempt_log env command csize (k - 1) w) as (evs & -> & _ & Hs).
    now rewrite since_app.
  - intro Hfail. unfold oceanic_veo250_transfer. rewrite Hh.
    destruct (attempt env command csize (k - 1) w) as [rc w'].
    cbn [fst snd] in *. now rewrite Hfail.
  - unfold oceanic_veo250_transfer, call. rewrite Hh.
    destruct (attempt env command csize (k - 1) w) as [rc w'].
    destruct (negb (is_success rc)); [discriminate|].
    destruct (negb (is_success _)); [discriminate|].
    destruct (negb (Byte.eqb _ _)); discriminate.
Qed.

(** Scenario 4 of the spec: three NAKs in a row. *)
Example three_naks :
  let run := oceanic_veo250_transfer (scripted [[NAK]; [NAK]; [NAK]])
               [x90; x00] 2 (repeat x00 18) 18 [] in
  option_map (fun r => fst (fst r)) run = Some DC_STATUS_PROTOCOL
  /\ option_map (fun r => attempts (snd r)) run = Some 3%nat
  /\ option_map (fun r => sleeps (snd r)) run = Some [100; 100].
Proof. vm_compute. repeat split. Qed.

(** Scenario 3 of the spec: two NAKs, then an ACK and the answer. *)
Example two_naks_then_ack :
  let run := oceanic_veo250_transfer
               (scripted [[NAK]; [NAK]; [ACK]; sample_page ++ [x71; NAK]])
               [x90; x00] 2 (repeat x00 18) 18 [] in
  option_map (fun r => fst (fst r)) run = Some DC_STATUS_SUCCESS
  /\ option_map (fun r => attempts (snd r)) run = Some 3%nat.
Proof. vm_compute. repeat split. Qed.

(** *** Checked pages *)

Lemma checksum_fold (data : list byte) :
  forall init,
    fold_left (fun crc b => (crc + byte_val b) mod 256) data (init mod 256)
    = (init + byte_sum data) mod 256.
Proof.
  induction data as [|b data IH]; intro init; cbn [fold_left byte_sum fold_right].
  - now rewrite Z.add_0_r.
  - rewrite Zplus_mod_idemp_l, IH. f_equal. fold (byte_sum data). lia.
Qed.

Lemma checksum_add_uint8_sum (data : list byte) (size : Z) :
  checksum_add_uint8 data size 0 = byte_sum (slice data 0 size) mod 256.
Proof.
  unfold checksum_add_uint8. apply (checksum_fold (slice data 0 size) 0).
Qed.

Lemma byte_sum_app (a b : list byte) :
  byte_sum (a ++ b) = byte_sum a + byte_sum b.
Proof.
  induction a as [|x a IH]; [reflexivity|].
  cbn [app byte_sum fold_right]. fold (byte_sum (a ++ b)) (byte_sum a). lia.
Qed.

Lemma byte_val_of_Z (z : Z) : 0 <= z < 256 -> byte_val (byte_of_Z z) = z.
Proof.
  intro Hz. unfold byte_of_Z, byte_val. rewrite Z.mod_small by exact Hz.
  pose proof (Byte.to_of_N_option_map (Z.to_N z)) as H.
  destruct (Byte.of_N (Z.to_N z)) as [b|].
  - cbn in H. destruct (N.leb (Z.to_N z) 255); [|discriminate].
    injection H as ->. lia.
  - cbn in H. destruct (N.leb (Z.to_N z) 255) eqn:E; [discriminate|].
    apply N.leb_gt in E. lia.
Qed.

Lemma slice_prefix (page rest : list byte) (size : Z) :
  Z.of_nat (length page) = size -> slice (page ++ rest) 0 size = page.
Proof.
  intros <-. unfold slice. cbn [Z.to_nat skipn]. rewrite Nat2Z.id.
  rewrite firstn_app, Nat.sub_diag, firstn_all. cbn. apply app_nil_r.
Qed.

Lemma slice_whole (page : list byte) (size : Z) :
  Z.of_nat (length page) = size -> slice page 0 size = page.
Proof.
  intro H. rewrite <- (app_nil_r page) at 1. now apply slice_prefix.
Qed.

(** One changed byte changes the checksum. *)
Lemma checksum_detects_one_byte (page received : list byte) :
  differ_in_one_byte page received ->
  byte_sum page mod 256 <> byte_sum received mod 256.
Proof.
  intros (pre & x & y & post & -> & -> & Hxy) H.
  rewrite !byte_sum_app in H.
  change (byte_sum (x :: post)) with (byte_val x + byte_sum post) in H.
  change (byte_sum (y :: post)) with (byte_val y + byte_sum post) in H.
  apply Hxy, byte_val_inj.
  pose proof (byte_val_range x). pose proof (byte_val_range y).
  pose proof (Z.div_mod (byte_sum pre + (byte_val x + byte_sum post)) 256).
  pose proof (Z.div_mod (byte_sum pre + (byte_val y + byte_sum post)) 256).
  lia.
Qed.

Section Pages.

Variable PAGESIZE : Z.

(** The check of one page in [answer]: it passes when the byte after the
    page is the checksum of the page, and only then. *)
Lemma read_packets_one (received rest : list byte) (crc : byte)
    (nbytes address : Z) (out : list byte) :
  Z.of_nat (length received) = PAGESIZE ->
  read_packets PAGESIZE 1 (received ++ crc :: rest) 0 nbytes address out
  = if byte_val crc =? byte_sum received mod 256
    then (DC_STATUS_SUCCESS, u32 (nbytes + PAGESIZE), u32 (address + PAGESIZE),
          out ++ received)
    else (DC_STATUS_PROTOCOL, nbytes, address, out).
Proof.
  intro Hlen. cbn [read_packets Z.to_nat skipn].
  rewrite checksum_add_uint8_sum, !slice_prefix by exact Hlen.
  unfold byte_at. rewrite Z.add_0_l, <- Hlen, Nat2Z.id.
  rewrite app_nth2, Nat.sub_diag by lia. cbn [nth].
  now destruct (_ =? _).
Qed.

End Pages.

(** C6. Let the device answer the request for one page with [received],
    the checksum byte of [page], and whatever follows. If [received] is
    [page], the read accepts it and returns the page; if [received] is
    [page] with one byte changed, the read fails with a protocol error and
    returns no data. *)
Theorem page_checksum_round_trip
    (env : environment) (PAGESIZE : Z) (device : oceanic_veo250_device_t)
    (address : Z) (page received rest : list byte) (w w' : world) :
  let crc := byte_of_Z (checksum_add_uint8 page PAGESIZE 0) in
  let first := address / PAGESIZE in
  let device' := {| base_layout := base_layout device;
                    base_version := base_version device;
                    base_multipage := base_multipage device;
                    last := u32 (first + 1 - 1) |} in
  0 < PAGESIZE < 4294967296 ->
  address mod PAGESIZE = 0 ->
  Z.of_nat (length page) = PAGESIZE ->
  Z.of_nat (length received) = PAGESIZE ->
  oceanic_veo250_transfer env
    (read_command first (u32 (first + 1 - 1))) 6
    (repeat x00 (Z.to_nat ((PAGESIZE + 1) * MULTIPAGE + 1)))
    (u32 ((PAGESIZE + 1) * 1 + 1)) w
  = Some (DC_STATUS_SUCCESS, received ++ crc :: rest, w') ->
  (received = page ->
   oceanic_veo250_device_read env PAGESIZE device address PAGESIZE w
   = Some (DC_STATUS_SUCCESS, device', page, w'))
  /\ (differ_in_one_byte page received ->
      oceanic_veo250_device_read env PAGESIZE device address PAGESIZE w
      = Some (DC_STATUS_PROTOCOL, device', [], w')).
Proof.
  cbv zeta. intros Hpage Haddr Hlen Hrecv Htransfer.
  assert (Hread :
    oceanic_veo250_device_read env PAGESIZE device address PAGESIZE w
    = if byte_sum page mod 256 =? byte_sum received mod 256
      then Some (DC_STATUS_SUCCESS,
                 {| base_layout := base_layout device;
                    base_version := base_version device;
                    base_multipage := base_multipage device;
                    last := u32 (address / PAGESIZE + 1 - 1) |},
                 received, w')
      else Some (DC_STATUS_PROTOCOL,
                 {| base_layout := base_layout device;
                    base_version := base_version device;
                    base_multipage := base_multipage device;
                    last := u32 (address / PAGESIZE + 1 - 1) |},
                 [], w')).
  { unfold oceanic_veo250_device_read.
    rewrite Haddr, Z.mod_same by lia. cbn [Z.eqb negb orb].
    destruct (Z.to_nat PAGESIZE) as [|fuel] eqn:Hfuel; [lia|].
    cbn [read_loop].
    replace (0 <? PAGESIZE) with true by (symmetry; apply Z.ltb_lt; lia).
    cbn [negb]. rewrite Z.sub_0_r, (u32_small PAGESIZE), Z.div_same by lia.
    change (MULTIPAGE <? 1) with false. cbv iota.
    rewrite Htransfer. cbn [is_success status_eqb negb].
    change (Z.to_nat 1) with 1%nat.
    rewrite (read_packets_one PAGESIZE) by exact Hrecv.
    rewrite checksum_add_uint8_sum, slice_whole by exact Hlen.
    rewrite byte_val_of_Z by (apply Z.mod_pos_bound; lia).
    destruct (_ =? _); [|reflexivity].
    rewrite Z.add_0_l, (u32_small PAGESIZE) by lia.
    destruct fuel; cbn [read_loop]; rewrite Z.ltb_irrefl; reflexivity. }
  split.
  - intros ->. rewrite Hread, Z.eqb_refl. reflexivity.
  - intro Hdiff. rewrite Hread.
    apply checksum_detects_one_byte in Hdiff.
    apply Z.eqb_neq in Hdiff. now rewrite Hdiff.
Qed.

Lemma page_checksum_round_trip_witness :
  let env := scripted [[ACK]; sample_page ++ [x71; NAK]] in
  let device := {| base_layout := Some oceanic_veo250_layout;
                   base_version := sample_page;
                   base_multipage := MULTIPAGE; last := 0 |} in
  let w' := match oceanic_veo250_transfer env (read_command 0 0) 6
                    (repeat x00 69) 18 [] with
            | Some (_, _, w') => w'
            | None => []
            end in
  (sample_page = sample_page ->
   oceanic_veo250_device_read env 16 device 0 16 []
   = Some (DC_STATUS_SUCCESS, device, sample_page, w'))
  /\ (differ_in_one_byte sample_page sample_page ->
      oceanic_veo250_device_read env 16 device 0 16 []
      = Some (DC_STATUS_PROTOCOL, device, [], w')).
Proof.
  apply (page_checksum_round_trip
           (scripted [[ACK]; sample_page ++ [x71; NAK]]) 16
           {| base_layout := Some oceanic_veo250_layout;
              base_version := sample_page;
              base_multipage := MULTIPAGE; last := 0 |}
           0 sample_page sample_page (NAK :: repeat x00 51) []);
    try reflexivity.
  lia.
Defined.

(** A page that arrives intact, and the same page with its third byte
    changed on the way. *)
Example intact_page_accepted :
  option_map (fun r => (fst (fst (fst r)), snd (fst r)))
    (oceanic_veo250_device_read
       (scripted [[ACK]; sample_page ++ [x71; NAK]]) 16
       {| base_layout := Some oceanic_veo250_layout;
          base_version := []; base_multipage := MULTIPAGE; last := 0 |}
       0 16 [])
  = Some (DC_STATUS_SUCCESS, sample_page).
Proof. vm_compute. reflexivity. Qed.

Example damaged_page_rejected :
  option_map (fun r => (fst (fst (fst r)), snd (fst r)))
    (oceanic_veo250_device_read
       (scripted [[ACK]; poke sample_page 2 [x4f] ++ [x71; NAK]]) 16
       {| base_layout := Some oceanic_veo250_layout;
          base_version := []; base_multipage := MULTIPAGE; last := 0 |}
       0 16 [])
  = Some (DC_STATUS_PROTOCOL, []).
Proof. vm_compute. reflexivity. Qed.

(** *** Opening the device *)

Lemma init_mismatch (env : environment) (w : world) :
  let wr := env w (SerialWrite [x55; x00]) in
  let w1 := (SerialWrite [x55; x00], wr) :: w in
  let rd := env w1 (SerialRead 13) in
  is_success (rp_status wr) = true ->
  is_success (rp_status rd) = true ->
  firstn 13 (store (repeat x00 13) (rp_data rd) 13) <> response ->
  oceanic_veo250_init env w = (DC_STATUS_PROTOCOL, (SerialRead 13, rd) :: w1).
Proof.
  cbv zeta. intros Hwr Hrd Hne.
  unfold oceanic_veo250_init, call. rewrite Hwr, Hrd. cbn [negb].
  replace (memcmp_eq _ response 13) with false; [reflexivity|].
  symmetry. apply memcmp_eq_false. exact Hne.
Qed.

(** C8, as the code has it. When the port was set up without a failure
    and the reply to the initialization command is received in full but
    differs from the template, [init] reports a protocol error and [open]
    fails with it: it closes the port and frees the handle, and the
    version command is not sent. *)
Theorem open_init_mismatch_is_fatal
    (env : environment) (PAGESIZE : Z) (name : list byte) (w : world) :
  let w0 := play env (setup_requests name) w in
  let wr := env w0 (SerialWrite [x55; x00]) in
  let w1 := (SerialWrite [x55; x00], wr) :: w0 in
  let rd := env w1 (SerialRead 13) in
  let w2 := (SerialRead 13, rd) :: w1 in
  let w3 := (SerialClose, env w2 SerialClose) :: w2 in
  all_granted env (setup_requests name) w = true ->
  is_success (rp_status wr) = true ->
  is_success (rp_status rd) = true ->
  firstn 13 (store (repeat x00 13) (rp_data rd) 13) <> response ->
  oceanic_veo250_init env w0 = (DC_STATUS_PROTOCOL, w2)
  /\ oceanic_veo250_device_open env PAGESIZE name w
     = Some (DC_STATUS_PROTOCOL, None,
             (DeviceDeallocate, env w3 DeviceDeallocate) :: w3).
Proof.
  cbv zeta. intros Hsetup Hwr Hrd Hne.
  pose proof (init_mismatch env _ Hwr Hrd Hne) as Hinit.
  split; [exact Hinit|].
  revert Hinit Hsetup. unfold setup_requests.
  cbn [play all_granted call granted snd].
  intros Hinit Hsetup.
  repeat (apply andb_true_iff in Hsetup as [? Hsetup]).
  unfold oceanic_veo250_device_open. cbn [call].
  repeat match goal with
         | H : _ = true |- _ => rewrite H; clear H
         end.
  cbn [negb]. rewrite Hinit. reflexivity.
Qed.

Lemma open_init_mismatch_is_fatal_witness :
  oceanic_veo250_init quiet (play quiet (setup_requests []) [])
  = (DC_STATUS_PROTOCOL,
     (SerialRead 13, answer DC_STATUS_SUCCESS (repeat x00 13) false)
     :: (SerialWrite [x55; x00], answer DC_STATUS_SUCCESS [] false)
     :: play quiet (setup_requests []) [])
  /\ oceanic_veo250_device_open quiet 16 [] []
     = Some (DC_STATUS_PROTOCOL, None,
             (DeviceDeallocate, answer DC_STATUS_SUCCESS [] false)
             :: (SerialClose, answer DC_STATUS_SUCCESS [] false)
             :: (SerialRead 13, answer DC_STATUS_SUCCESS (repeat x00 13) false)
             :: (SerialWrite [x55; x00], answer DC_STATUS_SUCCESS [] false)
             :: play quiet (setup_requests []) []).
Proof.
  apply (open_init_mismatch_is_fatal quiet 16 [] []); try reflexivity.
  vm_compute. discriminate.
Defined.

(** C8 as the spec has it fails. On a port that answers the
    initialization command with thirteen zero bytes, [open] fails with a
    protocol error and yields no handle; the last things it asked for are
    the close of the port and the release of the handle, and the version
    command [90 00] was never written. *)
Lemma open_fails_on_init_mismatch :
  option_map (fun r => (fst (fst r), snd (fst r), requests (snd r)))
             (oceanic_veo250_device_open quiet 16 [] [])
  = Some (DC_STATUS_PROTOCOL, None,
          [DeviceAllocate; SerialOpen [];
           SerialConfigure 9600 8 DC_PARITY_NONE DC_STOPBITS_ONE
                           DC_FLOWCONTROL_NONE;
           SerialSetTimeout 3000; SerialSetDtr 1; SerialSetRts 1;
           SerialSleep 100; SerialPurge DC_DIRECTION_ALL;
           SerialWrite [x55; x00]; SerialRead 13;
           SerialClose; DeviceDeallocate]).
Proof. vm_compute. reflexivity. Qed.

(** What [init] lets pass: a read that fails without a single byte. *)
Lemma init_tolerates_silence (env : environment) (w : world) :
  let wr := env w (SerialWrite [x55; x00]) in
  let w1 := (SerialWrite [x55; x00], wr) :: w in
  let rd := env w1 (SerialRead 13) in
  is_success (rp_status wr) = true ->
  is_success (rp_status rd) = false ->
  rp_data rd = [] ->
  oceanic_veo250_init env w = (DC_STATUS_SUCCESS, (SerialRead 13, rd) :: w1).
Proof.
  cbv zeta. intros Hwr Hrd Hdata.
  unfold oceanic_veo250_init, call. rewrite Hwr, Hrd, Hdata. reflexivity.
Qed.

End OceanicVeo250Theory.

(* ================================================================= *)
(** ** mares_darwinair.c: more about the extractor *)

Module MaresDarwinAirImageTheory.

Import MaresDarwinAir MaresDarwinAirImage MaresDarwinAirTheory.

Section Prefix.

Context {U : Type}.
Variable l : mares_darwinair_layout_t.
Variable fp : list byte.
Variable data : list byte.
Variable last : Z.

Lemma walk_length (n : nat) :
  forall i current remaining,
    (length (walk l data last n i current remaining) <= n)%nat.
Proof.
  induction n as [|n IH]; intros i current remaining; cbn [walk]; [cbn; lia|].
  destruct (next_dive l data last i current remaining) as [d|]; cbn [length].
  - specialize (IH (u32 (i + 1)) (dv_current d)
                   (u32 (remaining - dv_length d))). lia.
  - lia.
Qed.

Lemma loop_no_callback (n : nat) :
  forall s, delivered (events_of (loop l fp data last (@None (@dive_callback_t U)) n s)) = [].
Proof.
  induction n as [|n IH]; intro s; [reflexivity|].
  cbn [loop]. case_body l fp data last (@None (@dive_callback_t U)) s;
    try reflexivity; try discriminate.
  specialize (IH (advance s d (ls_userdata s))).
  destruct (loop _ _ _ _ _ n _) as [[rc tr] u'].
  unfold events_of in *; cbn in *. exact IH.
Qed.

(** What the loop delivers is the beginning of what the walk finds. *)
Lemma loop_delivers_prefix (cb : @dive_callback_t U) (n : nat) :
  forall s,
    exists rest,
      walk l data last n (ls_i s) (ls_current s) (ls_remaining s)
      = delivered (events_of (loop l fp data last (Some cb) n s)) ++ rest.
Proof.
  induction n as [|n IH]; intro s; [now exists []|].
  cbn [loop walk]. case_body l fp data last (Some cb) s; rewrite ?Hd.
  - now exists [].
  - eexists. reflexivity.
  - discriminate.
  - eexists. reflexivity.
  - destruct (IH (advance s d u)) as (rest & Hw).
    cbn [advance ls_i ls_current ls_remaining] in Hw.
    destruct (loop _ _ _ _ _ n _) as [[rc' tr] u'].
    unfold events_of in *; cbn in *. exists rest. now rewrite Hw.
Qed.

(** It ends before the first dive that starts like the fingerprint. *)
Lemma loop_delivers_before_match (cb : @dive_callback_t U) (n : nat) :
  forall s k r,
    nth_error (walk l data last n (ls_i s) (ls_current s) (ls_remaining s)) k
    = Some r ->
    firstn 6 r = firstn 6 fp ->
    exists rest,
      firstn k (walk l data last n (ls_i s) (ls_current s) (ls_remaining s))
      = delivered (events_of (loop l fp data last (Some cb) n s)) ++ rest.
Proof.
  induction n as [|n IH]; intros s k r Hk Hr.
  - destruct k; discriminate.
  - revert Hk. cbn [loop walk].
    case_body l fp data last (Some cb) s; rewrite ?Hd; intro Hk.
    + destruct k; discriminate.
    + eexists. reflexivity.
    + discriminate.
    + destruct k as [|k]; cbn in Hk.
      * injection Hk as <-. apply memcmp_eq_false in Hm. contradiction.
      * eexists. reflexivity.
    + destruct k as [|k]; cbn in Hk.
      * injection Hk as <-. apply memcmp_eq_false in Hm. contradiction.
      * destruct (IH (advance s d u) k r Hk Hr) as (rest & Hw).
        cbn [advance ls_i ls_current ls_remaining] in Hw.
        destruct (loop _ _ _ _ _ n _) as [[rc' tr] u'].
        unfold events_of in *; cbn in *. exists rest. now rewrite Hw.
Qed.

(** The events tell of the calls that were made. *)
Lemma loop_replay (cb : @dive_callback_t U) (n : nat) :
  forall s,
    replay cb (ls_userdata s) (events_of (loop l fp data last (Some cb) n s))
    = Some (snd (loop l fp data last (Some cb) n s)).
Proof.
  induction n as [|n IH]; intro s; [reflexivity|].
  cbn [loop]. case_body l fp data last (Some cb) s; try reflexivity.
  - discriminate.
  - injection Hc as <-. unfold events_of; cbn [fst snd replay].
    now rewrite Hcb.
  - injection Hc as <-. specialize (IH (advance s d u)).
    destruct (loop _ _ _ _ _ n _) as [[rc' tr] u'].
    unfold events_of in *; cbn [fst snd replay app advance ls_userdata] in *.
    now rewrite Hcb, Z.eqb_refl.
Qed.

End Prefix.

(** *** Reads inside the image *)

Lemma skipn_nth_cons (data : list byte) :
  forall o, (o < length data)%nat ->
            skipn o data = nth o data x00 :: skipn (S o) data.
Proof.
  induction data as [|b data IH]; intros o Ho; cbn in Ho; [lia|].
  destruct o as [|o]; [reflexivity|].
  cbn [skipn nth]. apply IH. lia.
Qed.

Lemma seq_offset (o n : nat) : seq o n = map (fun k => (o + k)%nat) (seq 0 n).
Proof.
  induction o as [|o IH]; [now rewrite map_id|].
  rewrite <- seq_shift, IH, map_map. reflexivity.
Qed.

Lemma firstn_skipn_map (data : list byte) (n : nat) :
  forall o, (o + n <= length data)%nat ->
            firstn n (skipn o data)
            = map (fun k => nth (o + k) data x00) (seq 0 n).
Proof.
  induction n as [|n IH]; intros o Ho; [reflexivity|].
  rewrite skipn_nth_cons by lia. cbn [firstn seq map].
  rewrite Nat.add_0_r, IH by lia. f_equal.
  rewrite <- seq_shift, map_map. apply map_ext. intro k.
  f_equal. lia.
Qed.

(** A copy that stays inside the buffer reads the bytes at [off], [off +
    1], and so on. *)
Lemma slice_as_map (data : list byte) (off len : Z) :
  0 <= off -> 0 <= len -> off + len <= Z.of_nat (length data) ->
  slice data off len
  = map (fun k => byte_at data (off + Z.of_nat k)) (seq 0 (Z.to_nat len)).
Proof.
  intros Hoff Hlen Hin. unfold slice, byte_at.
  rewrite firstn_skipn_map by lia. apply map_ext. intro k.
  f_equal. lia.
Qed.

Section Sizes.

Context {U : Type}.
Variable l : mares_darwinair_layout_t.
Variable fp : list byte.
Variable data : list byte.
Variable last : Z.
Variable callback : option (@dive_callback_t U).

Hypothesis Hfits : image_fits l data.

(** The logbook slot of every iteration lies inside the image. *)
Lemma next_dive_offset (i current remaining : Z) (d : dive) :
  next_dive l data last i current remaining = Some d ->
  0 <= dv_offset d
  /\ dv_offset d + rb_logbook_size l <= Z.of_nat (length data).
Proof.
  destruct Hfits as ((Hbe & Hend & Hsz & Hbuf) & Hcount & Hoff & Hlog & Hring & Hlen).
  unfold next_dive.
  set (idx := u32 (rb_logbook_count l + last - i) mod rb_logbook_count l).
  assert (Hidx : 0 <= idx < rb_logbook_count l)
    by (apply Z.mod_pos_bound; lia).
  assert (Hprod : 0 <= idx * rb_logbook_size l
                  /\ idx * rb_logbook_size l + rb_logbook_size l
                     <= rb_logbook_count l * rb_logbook_size l) by nia.
  rewrite (u32_small (idx * rb_logbook_size l)) by lia.
  rewrite (u32_small (rb_logbook_offset l + _)) by lia.
  destruct (_ || _); [discriminate|].
  destruct (current <? _); intro E; injection E as <-; cbn [dv_offset]; lia.
Qed.

(** The profile of a dive is the [length] bytes of the ring that end at
    [current], whether the copy is in one piece or in two; and the cursor
    is left where these bytes start. *)
Lemma next_dive_profile (i current remaining : Z) (d : dive) :
  rb_profile_begin l <= current <= rb_profile_end l ->
  0 <= remaining <= rb_profile_end l - rb_profile_begin l ->
  next_dive l data last i current remaining = Some d ->
  flat_map (fun s => slice data (fst s) (snd s)) (dv_spans d)
  = ring_bytes l data current (dv_length d)
  /\ dv_current d = ring_position l (current - dv_length d).
Proof.
  destruct Hfits as ((Hbe & Hend & Hsz & Hbuf) & Hcount & Hoff & Hlog & Hring & Hlen).
  intros Hc Hr. unfold next_dive.
  set (nsamples := array_uint16_be data _).
  set (len := u32 (nsamples * samplesize l)).
  pose proof (u32_range (nsamples * samplesize l)) as Hlen'. fold len in Hlen'.
  destruct (_ || _) eqn:Hguard; [discriminate|].
  apply orb_false_iff in Hguard as [_ Hle]. apply Z.ltb_ge in Hle.
  rewrite (u32_small (rb_profile_begin l + len)) by lia.
  unfold ring_bytes, ring_position.
  destruct (current <? _) eqn:Hwrap.
  - apply Z.ltb_lt in Hwrap.
    rewrite (u32_small (current - rb_profile_begin l)) by lia.
    rewrite (u32_small (len - _)) by lia.
    rewrite (u32_small (rb_profile_end l - _)) by lia.
    intro E; injection E as <-. cbn [dv_length dv_spans dv_current flat_map fst snd].
    set (a := current - rb_profile_begin l).
    set (b := len - a).
    split.
    + rewrite app_nil_r, !slice_as_map by lia.
      replace (Z.to_nat len) with (Z.to_nat b + Z.to_nat a)%nat by lia.
      rewrite seq_app, map_app. f_equal.
      * apply map_ext_in. intros k Hk. apply in_seq in Hk.
        replace (current - len + Z.of_nat k <? rb_profile_begin l) with true
          by (symmetry; apply Z.ltb_lt; lia).
        f_equal. lia.
      * cbn [Nat.add]. rewrite (seq_offset (Z.to_nat b)), map_map. apply map_ext_in. intros k Hk. apply in_seq in Hk.
        replace (current - len + Z.of_nat (Z.to_nat b + k)
                 <? rb_profile_begin l) with false
          by (symmetry; apply Z.ltb_ge; lia).
        f_equal. lia.
    + replace (current - len <? rb_profile_begin l) with true
        by (symmetry; apply Z.ltb_lt; lia).
      lia.
  - apply Z.ltb_ge in Hwrap.
    rewrite (u32_small (current - len)) by lia.
    intro E; injection E as <-. cbn [dv_length dv_spans dv_current flat_map fst snd].
    split.
    + rewrite app_nil_r, slice_as_map by lia.
      apply map_ext_in. intros k Hk. apply in_seq in Hk.
      replace (current - len + Z.of_nat k <? rb_profile_begin l) with false
        by (symmetry; apply Z.ltb_ge; lia).
      reflexivity.
    + replace (current - len <? rb_profile_begin l) with false
        by (symmetry; apply Z.ltb_ge; lia).
      reflexivity.
Qed.

Lemma dive_record_length (i current remaining : Z) (d : dive) :
  rb_profile_begin l <= current <= rb_profile_end l ->
  0 <= remaining <= rb_profile_end l - rb_profile_begin l ->
  next_dive l data last i current remaining = Some d ->
  Z.of_nat (length (dive_record l data d)) = rb_logbook_size l + dv_length d.
Proof.
  intros Hc Hr Hd.
  pose proof Hfits as ((Hbe & Hend & Hsz & Hbuf) & _).
  destruct (next_dive_offset _ _ _ _ Hd) as [Ho1 Ho2].
  destruct (next_dive_profile _ _ _ _ Hc Hr Hd) as [Hp _].
  destruct (next_dive_ring l data last (proj1 Hfits) _ _ _ _ Hc Hr Hd)
    as (Hlen & _).
  unfold dive_record. rewrite length_app, Hp, slice_length by lia.
  unfold ring_bytes. rewrite length_map, length_seq. lia.
Qed.

Lemma loop_well_sized (n : nat) :
  forall s, ring_inv l s ->
            Forall (well_sized l)
                   (events_of (loop l fp data last callback n s)).
Proof.
  pose proof Hfits as ((Hbe & Hend & Hsz & Hbuf) & _).
  induction n as [|n IH]; intros s Hinv; [constructor|].
  cbn [loop]. pose proof Hinv as [Hcur Hrem].
  case_body l fp data last callback s; try constructor;
    pose proof (dive_record_length _ _ _ _ Hcur Hrem Hd) as Hrec;
    destruct (next_dive_ring l data last (proj1 Hfits) _ _ _ _ Hcur Hrem Hd)
      as (Hlen & _ & Hsize & _).
  - cbn. lia.
  - constructor.
  - specialize (IH _ (advance_ring_inv l data last (proj1 Hfits) s d
                        (ls_userdata s) Hinv Hd)).
    destruct (loop _ _ _ _ _ n _) as [[rc' tr] u'].
    unfold events_of in *; cbn [fst snd app] in *.
    constructor; [cbn; lia | exact IH].
  - cbn. lia.
  - constructor; [|constructor]. cbn. rewrite Hsize. lia.
  - specialize (IH _ (advance_ring_inv l data last (proj1 Hfits) s d u Hinv Hd)).
    destruct (loop _ _ _ _ _ n _) as [[rc' tr] u'].
    unfold events_of in *; cbn [fst snd app] in *.
    constructor; [cbn; lia|].
    constructor; [cbn; rewrite Hsize; lia | exact IH].
Qed.

End Sizes.

(** *** Whole extractions *)

Section Extraction.

Context {U : Type}.

(** X1. What an extraction delivers is the beginning of the dive records
    of the image, and never more than [rb_logbook_count] records. *)
Theorem extract_delivers_prefix
    (device : mares_darwinair_device_t) (data : list byte) (size : Z)
    (callback : option (@dive_callback_t U)) (u : U) (malloc_ok : bool) :
  let run := mares_darwinair_extract_dives
               (Some (MaresDarwinAir device)) data size callback u malloc_ok in
  (exists rest,
      image_dives (layout device) data = delivered (events_of run) ++ rest)
  /\ (length (delivered (events_of run))
      <= Z.to_nat (rb_logbook_count (layout device)))%nat.
Proof.
  cbv zeta.
  assert (Hprefix : exists rest,
             image_dives (layout device) data
             = delivered (events_of (mares_darwinair_extract_dives
                 (Some (MaresDarwinAir device)) data size callback u
                 malloc_ok)) ++ rest).
  { unfold image_dives, mares_darwinair_extract_dives.
    cbn [device_is_mares_darwinair negb].
    destruct (_ || _); [now eexists|].
    destruct (rb_logbook_count _ <=? _); [now eexists|].
    destruct (negb malloc_ok); [now eexists|].
    destruct callback as [cb|].
    - apply (loop_delivers_prefix (layout device) (fingerprint device) data _
               cb _ {| ls_i := 0; ls_current := _; ls_remaining := _;
                       ls_userdata := u |}).
    - rewrite loop_no_callback. now eexists. }
  split; [exact Hprefix|].
  destruct Hprefix as (rest & Hrest).
  assert (Hlen : (length (image_dives (layout device) data)
                  <= Z.to_nat (rb_logbook_count (layout device)))%nat).
  { unfold image_dives.
    destruct (_ || _); [cbn; lia|].
    destruct (rb_logbook_count _ <=? _); [cbn; lia|].
    apply walk_length. }
  rewrite Hrest, length_app in Hlen. lia.
Qed.

(** X2. Take any dive record of an image and hand its first six bytes
    to [set_fingerprint], as the callback is handed them. The call succeeds,
    and an extraction from that image then delivers nothing but dives that
    come before that record in the walk. *)
Theorem extract_after_set_fingerprint
    (device : mares_darwinair_device_t) (data : list byte) (size : Z)
    (callback : option (@dive_callback_t U)) (u : U) (malloc_ok : bool)
    (k : nat) (r : list byte) :
  let set := mares_darwinair_device_set_fingerprint device (slice r 0 6) 6 in
  let run := mares_darwinair_extract_dives
               (Some (MaresDarwinAir (snd set))) data size callback u
               malloc_ok in
  nth_error (image_dives (layout device) data) k = Some r ->
  fst set = DEVICE_STATUS_SUCCESS
  /\ exists rest,
      firstn k (image_dives (layout device) data)
      = delivered (events_of run) ++ rest.
Proof.
  cbv zeta. intro Hk.
  assert (Hset : mares_darwinair_device_set_fingerprint device (slice r 0 6) 6
                 = (DEVICE_STATUS_SUCCESS,
                    {| layout := layout device; fingerprint := firstn 6 r |})).
  { unfold mares_darwinair_device_set_fingerprint, slice.
    change (Z.to_nat 6) with 6%nat. change (Z.to_nat 0) with 0%nat.
    cbn [skipn Z.eqb negb andb]. now rewrite firstn_firstn. }
  rewrite Hset. cbn [fst snd]. split; [reflexivity|].
  revert Hk. unfold image_dives, mares_darwinair_extract_dives.
  cbn [device_is_mares_darwinair negb layout fingerprint].
  destruct (_ || _); [destruct k; discriminate|].
  destruct (rb_logbook_count _ <=? _); [destruct k; discriminate|].
  destruct (negb malloc_ok); [now eexists|].
  intro Hk. destruct callback as [cb|].
  - apply (loop_delivers_before_match (layout device) _ data _ cb _
             {| ls_i := 0; ls_current := _; ls_remaining := _;
                ls_userdata := u |} k r Hk).
    now rewrite firstn_firstn.
  - rewrite loop_no_callback. now eexists.
Qed.

(** X3. When the image holds the logbook and the profile ring of the
    layout, every record handed to the consumer has exactly as many bytes
    as the size it is handed with, which is the size of a logbook entry
    plus the length of the profile: every copy stays inside the image. *)
Theorem extract_records_well_sized
    (device : mares_darwinair_device_t) (data : list byte) (size : Z)
    (callback : option (@dive_callback_t U)) (u : U) (malloc_ok : bool) :
  image_fits (layout device) data ->
  Forall (well_sized (layout device))
         (events_of (mares_darwinair_extract_dives
                       (Some (MaresDarwinAir device)) data size callback u
                       malloc_ok)).
Proof.
  intro Hfits. unfold mares_darwinair_extract_dives.
  cbn [device_is_mares_darwinair negb].
  destruct (_ || _) eqn:Heop; [constructor|].
  destruct (rb_logbook_count _ <=? _); [constructor|].
  destruct (negb malloc_ok); [constructor|].
  apply loop_well_sized; [exact Hfits|].
  apply orb_false_iff in Heop as [Ha Hb].
  apply Z.ltb_ge in Ha. apply Z.leb_gt in Hb.
  destruct Hfits as ((Hbe & Hend & Hsz & Hbuf) & _).
  unfold ring_inv; cbn [ls_current ls_remaining].
  rewrite u32_small by lia. lia.
Qed.

(** X4. Under the same condition and with a valid end-of-profile
    pointer, the record of every dive the loop copies is its logbook entry
    followed by the [length] bytes of the profile ring that end at
    [current], in the order of the ring, whether or not they run over its
    boundary; and [current] is left at the first of them. *)
Theorem extract_copies_in_ring_order
    (device : mares_darwinair_device_t) (data : list byte)
    (callback : option (@dive_callback_t U)) :
  let l := layout device in
  let eop := array_uint16_be data 0x8A in
  let last := byte_val (byte_at data 0x8C) in
  image_fits l data ->
  rb_profile_begin l <= eop < rb_profile_end l ->
  forall s d,
    reachable l (fingerprint device) data last callback eop s ->
    next_dive l data last (ls_i s) (ls_current s) (ls_remaining s) = Some d ->
    dive_record l data d
    = slice data (dv_offset d) (rb_logbook_size l)
      ++ ring_bytes l data (ls_current s) (dv_length d)
    /\ dv_current d = ring_position l (ls_current s - dv_length d).
Proof.
  cbv zeta. intros Hfits Heop s d Hs Hd.
  destruct (reachable_ring_inv _ _ _ _ _ _ (proj1 Hfits) Heop s Hs)
    as [Hc Hr].
  destruct (next_dive_profile _ _ _ Hfits _ _ _ _ Hc Hr Hd) as [Hp Hcur].
  split; [|exact Hcur]. unfold dive_record. now rewrite Hp.
Qed.

(** X5. The events of an extraction are the calls of the callback: made
    again in their order, each with the user data the call before left,
    the fingerprint argument being the first six bytes of the record, they
    give the answers the events tell of and end with the user data the
    extraction returns. *)
Theorem extract_replays
    (abstract : option device_t) (data : list byte) (size : Z)
    (cb : @dive_callback_t U) (u : U) (malloc_ok : bool) :
  let run := mares_darwinair_extract_dives
               abstract data size (Some cb) u malloc_ok in
  replay cb u (events_of run) = Some (snd run).
Proof.
  cbv zeta. unfold mares_darwinair_extract_dives.
  destruct abstract as [[device|]|]; cbn [device_is_mares_darwinair negb];
    try reflexivity.
  destruct (_ || _); [reflexivity|].
  destruct (rb_logbook_count _ <=? _); [reflexivity|].
  destruct (negb malloc_ok); [reflexivity|].
  apply (loop_replay (layout device) (fingerprint device) data _ cb _
           {| ls_i := 0; ls_current := _; ls_remaining := _;
              ls_userdata := u |}).
Qed.

End Extraction.

(** *** The theorems at work on the images *)

Lemma darwinair_image_fits : image_fits mares_darwinair_layout two_dive_image.
Proof.
  unfold image_fits, layout_ok.
  replace (length two_dive_image) with (Z.to_nat 0x4000)
    by (vm_compute; reflexivity).
  cbn; lia.
Qed.

Lemma extract_after_set_fingerprint_witness :
  let r := [x0b; x05; x1e; x0a; x2d; x07; x00; x01] ++ repeat x00 52
           ++ [xa1; xa2; xa3] in
  let set := mares_darwinair_device_set_fingerprint
               mares_darwinair_device_default (slice r 0 6) 6 in
  let run := mares_darwinair_extract_dives
               (Some (MaresDarwinAir (snd set))) two_dive_image 0x4000
               (Some keep_going) tt true in
  fst set = DEVICE_STATUS_SUCCESS
  /\ exists rest,
      firstn 1 (image_dives mares_darwinair_layout two_dive_image)
      = delivered (events_of run) ++ rest.
Proof.
  apply (extract_after_set_fingerprint mares_darwinair_device_default
           two_dive_image 0x4000 (Some keep_going) tt true 1).
  vm_compute. reflexivity.
Defined.

(** After the fingerprint of the older dive is set, the newer one is
    delivered and nothing else. *)
Example incremental_download :
  let set := mares_darwinair_device_set_fingerprint
               mares_darwinair_device_default older_fingerprint 6 in
  delivered (events_of (mares_darwinair_extract_dives
                          (Some (MaresDarwinAir (snd set))) two_dive_image
                          0x4000 (Some keep_going) tt true))
  = [ [x0b; x05; x1f; x09; x0f; x03; x00; x02] ++ repeat x00 52
      ++ [xb1; xb2; xb3; xb4; xb5; xb6] ].
Proof. vm_compute. reflexivity. Qed.

Lemma extract_records_well_sized_witness :
  Forall (well_sized mares_darwinair_layout)
         (events_of (mares_darwinair_extract_dives
                       (Some (MaresDarwinAir mares_darwinair_device_default))
                       two_dive_image 0x4000 (Some keep_going) tt true)).
Proof.
  apply (extract_records_well_sized mares_darwinair_device_default
           two_dive_image 0x4000 (Some keep_going) tt true).
  exact darwinair_image_fits.
Defined.

Lemma one_dive_image_fits : image_fits mares_darwinair_layout one_dive_image.
Proof.
  unfold image_fits, layout_ok.
  replace (length one_dive_image) with (Z.to_nat 0x4000)
    by (vm_compute; reflexivity).
  cbn; lia.
Qed.

(** The dive of scenario 1 runs over the boundary of the ring. *)
Lemma extract_copies_in_ring_order_witness :
  let l := mares_darwinair_layout in
  let s := {| ls_i := 0; ls_current := 0x0CC5;
              ls_remaining := 0x333F; ls_userdata := tt |} in
  let d := {| dv_offset := 0x0100; dv_length := 30;
              dv_spans := [(0x3FE6, 25); (0x0CC0, 5)];
              dv_current := 0x3FE6 |} in
  dive_record l one_dive_image d
  = slice one_dive_image (dv_offset d) (rb_logbook_size l)
    ++ ring_bytes l one_dive_image (ls_current s) (dv_length d)
  /\ dv_current d = ring_position l (ls_current s - dv_length d).
Proof.
  intros l s d.
  apply (extract_copies_in_ring_order mares_darwinair_device_default
           one_dive_image (Some keep_going) one_dive_image_fits).
  - vm_compute. split; [discriminate | reflexivity].
  - replace s
      with {| ls_i := 0;
              ls_current := array_uint16_be one_dive_image 0x8A;
              ls_remaining :=
                u32 (rb_profile_end mares_darwinair_layout
                     - rb_profile_begin mares_darwinair_layout);
              ls_userdata := tt |}
      by (vm_compute; reflexivity).
    apply reach_init.
  - vm_compute. reflexivity.
Defined.

End MaresDarwinAirImageTheory.

(* ================================================================= *)
(** ** mares_darwinair.c: opening and closing the device *)

Module MaresDarwinAirPortTheory.

Import MaresDarwinAir MaresDarwinAirPort.

(** X6. Whatever the C library and the serial port answer, [open] either
    succeeds, with the default handle, one port opened and one handle
    allocated more than before, and nothing closed or freed; or it fails
    with [DEVICE_STATUS_MEMORY] or [DEVICE_STATUS_IO], yields no handle,
    and has closed the port and freed the handle if it had opened or
    allocated them. After a successful [open], [close] closes the port and
    frees the handle whether or not the port reports an error. *)
Theorem open_close_balanced
    (env : environment) (name : list byte) (w : world) :
  let run := mares_darwinair_device_open env name w in
  let w1 := snd run in
  let w2 := snd (mares_darwinair_device_close env w1) in
  (fst run = (DEVICE_STATUS_SUCCESS, Some mares_darwinair_device_default)
   /\ opened w1 = S (opened w) /\ closed w1 = closed w
   /\ allocated w1 = S (allocated w) /\ freed w1 = freed w
   /\ opened w2 = opened w1 /\ closed w2 = S (closed w1)
   /\ allocated w2 = allocated w1 /\ freed w2 = S (freed w1))
  \/ ((fst run = (DEVICE_STATUS_MEMORY, None)
       \/ fst run = (DEVICE_STATUS_IO, None))
      /\ (opened w1 + closed w = opened w + closed w1)%nat
      /\ (allocated w1 + freed w = allocated w + freed w1)%nat).
Proof.
  cbv zeta.
  unfold mares_darwinair_device_open, mares_darwinair_device_close,
    fail_close, call.
  repeat match goal with
         | |- context [if ?c =? ?k then _ else _] =>
           let E := fresh "E" in destruct (c =? k) eqn:E
         end;
    cbn [fst snd];
    try (right; split; [auto|];
         unfold opened, closed, allocated, freed; cbn;
         rewrite ?E, ?E0, ?E1, ?E2, ?E3, ?E4; cbn; lia);
    left; unfold opened, closed, allocated, freed; cbn;
    rewrite ?E, ?E0, ?E1, ?E2, ?E3, ?E4; cbn; repeat split; lia.
Qed.

End MaresDarwinAirPortTheory.

(* ================================================================= *)
(** ** mares_darwinair.c: dump and foreach *)

Module MaresDarwinAirForeachTheory.

Import MaresDarwinAir MaresDarwinAirForeach.

Section Foreach.

Variable env : environment.
Variable PACKETSIZE : Z.
Context {U : Type}.



End Foreach.

End MaresDarwinAirForeachTheory.

(* ================================================================= *)
(** ** suunto_common.c: more about the walk *)

Module SuuntoCommonWalkTheory.

Import SuuntoCommon SuuntoCommonWalk.

Section Steps.

Context {U : Type}.
Variable ringbuffer_decrement : Z -> Z -> Z -> Z -> Z.
Variable ringbuffer_distance : Z -> Z -> Z -> Z -> Z.
Variable data : list byte.
Variables begin end_ peek : Z.
Variable callback : option (@dive_callback_t U).

Local Abbreviation body :=
  (body ringbuffer_decrement ringbuffer_distance data begin end_ peek callback).
Local Abbreviation loop :=
  (loop ringbuffer_decrement ringbuffer_distance data begin end_ peek callback).

(** The three ways through the loop body: out on a marker; on with one
    record; on with none. *)
Lemma body_shape (s : loop_state) :
  (exists s', body s = Break s'
              /\ ls_current s' = step_back begin end_ (ls_current s)
              /\ byte_at data (ls_current s') = x82)
  \/ (exists evs s', body s = Next evs s'
                     /\ ls_current s' = step_back begin end_ (ls_current s)
                     /\ byte_at data (ls_current s') <> x82
                     /\ (length (delivered evs) <= 1)%nat).
Proof.
  unfold SuuntoCommon.body.
  destruct (Byte.eqb (byte_at data (step_back begin end_ (ls_current s))) x82)
    eqn:E.
  - left. eexists. split; [reflexivity|]. split; [reflexivity|].
    apply byte_eqb_eq in E. exact E.
  - right.
    assert (Hne : byte_at data (step_back begin end_ (ls_current s)) <> x82).
    { intro H. apply byte_eqb_eq in H. congruence. }
    destruct (Byte.eqb (byte_at data _) x80).
    + destruct callback as [cb|].
      * destruct (cb _ _ _) as [rc u]. do 2 eexists.
        split; [reflexivity|]. split; [reflexivity|]. split; [exact Hne|].
        cbn. lia.
      * do 2 eexists. split; [reflexivity|]. split; [reflexivity|].
        split; [exact Hne|]. cbn. lia.
    + do 2 eexists. split; [reflexivity|]. split; [reflexivity|].
      split; [exact Hne|]. cbn. lia.
Qed.


(** A walk that ends on a marker delivered fewer records than it took
    steps. *)
Lemma loop_records (n : nat) :
  forall s,
    (1 <= n)%nat ->
    byte_at data (ls_current (snd (loop n s))) = x82 ->
    (length (delivered (snd (fst (loop n s)))) < fst (fst (loop n s)))%nat.
Proof.
  induction n as [|n IH]; intros s Hn; [lia|].
  cbn [SuuntoCommon.loop].
  destruct (body_shape s)
    as [(s' & Hb & Hs' & Hm)|(evs & s' & Hb & Hs' & Hm & Hevs)]; rewrite Hb.
  - cbn. lia.
  - destruct n as [|n].
    + cbn. intro H. contradiction.
    + specialize (IH s' ltac:(lia)).
      destruct (loop (S n) s') as [[k tr] s'']. cbn [fst snd] in *.
      intro H. specialize (IH H).
      unfold delivered in *. rewrite flat_map_app, length_app. lia.
Qed.

End Steps.


(** X9. With [begin <= eop < end], an end-of-profile marker at [eop] and a
    ring that fits the buffer, the consumer is handed fewer records than
    the walk took steps, hence fewer than the ring has bytes. This holds
    whatever the two helpers of ringbuffer.h compute. *)
Theorem suunto_records_bounded {U : Type}
    (ringbuffer_decrement ringbuffer_distance : Z -> Z -> Z -> Z -> Z)
    (data : list byte) (begin end_ eop peek : Z)
    (callback : option (@dive_callback_t U)) (u : U) :
  let run := suunto_common_extract_dives ringbuffer_decrement
               ringbuffer_distance data begin end_ eop peek callback u in
  0 <= begin -> end_ < 4294967296 ->
  begin <= eop < end_ ->
  byte_at data eop = x82 ->
  end_ - begin <= buffer_size ->
  (length (delivered (ex_events run)) < ex_steps run)%nat
  /\ (length (delivered (ex_events run)) < Z.to_nat (end_ - begin))%nat.
Proof.
  cbv zeta. intros Hbegin Hend Heop Hmarker Hbuf.
  unfold suunto_common_extract_dives.
  replace ((begin <=? eop) && (eop <? end_)) with true
    by (symmetry; apply andb_true_iff; split;
        [apply Z.leb_le | apply Z.ltb_lt]; lia).
  rewrite Hmarker, (u32_small (end_ - begin)) by lia.
  replace (end_ - begin <=? buffer_size) with true
    by (symmetry; apply Z.leb_le; lia).
  change (negb (Byte.eqb x82 x82)) with false. cbn [negb].
  pose proof (SuuntoCommonTheory.loop_ends_on_marker
                ringbuffer_decrement ringbuffer_distance
                data begin end_ eop peek callback Hbegin Heop Hend Hmarker
                (Z.to_nat (end_ - begin))
                {| ls_i := 0; ls_current := eop; ls_previous := eop;
                   ls_userdata := u |} (-1)) as H.
  cbn [ls_current] in H. destruct H as [Hk Hx]; try lia.
  pose proof (loop_records ringbuffer_decrement ringbuffer_distance data
                begin end_ peek callback (Z.to_nat (end_ - begin))
                {| ls_i := 0; ls_current := eop; ls_previous := eop;
                   ls_userdata := u |} ltac:(lia) Hx) as Hrec.
  destruct (SuuntoCommon.loop _ _ _ _ _ _ _ _ _) as [[k tr] s].
  cbn [fst snd ex_events ex_steps] in *. lia.
Qed.

Lemma suunto_records_bounded_witness :
  let run := suunto_common_extract_dives
               Ringbuffer.ringbuffer_decrement Ringbuffer.ringbuffer_distance
               two_dive_ring 0 16 10 2 (Some always_stop) tt in
  (length (delivered (ex_events run)) < ex_steps run)%nat
  /\ (length (delivered (ex_events run)) < Z.to_nat (16 - 0))%nat.
Proof.
  apply (suunto_records_bounded
           Ringbuffer.ringbuffer_decrement Ringbuffer.ringbuffer_distance
           two_dive_ring 0 16 10 2 (Some always_stop) tt);
    try reflexivity; try lia.
  unfold buffer_size. lia.
Defined.

End SuuntoCommonWalkTheory.

(* ================================================================= *)
(** ** oceanic_veo250.c: more about the driver *)

Module OceanicVeo250DeviceTheory.

Import Checksum OceanicVeo250 OceanicVeo250Device OceanicVeo250Theory.

Lemma is_success_eq (rc : dc_status_t) :
  is_success rc = true -> rc = DC_STATUS_SUCCESS.
Proof. now destruct rc. Qed.

Lemma not_success_status (rc : dc_status_t) :
  is_success rc = false -> rc <> DC_STATUS_SUCCESS.
Proof. now intros H ->. Qed.

(** *** What a successful transfer has seen *)

Section Transfer.

Variable env : environment.
Variable command : list byte.
Variable csize : Z.

(** Every try is a [send], from some state of the log. *)
Lemma attempt_is_send (j : nat) (w : world) :
  exists w0, attempt env command csize j w
             = oceanic_veo250_send env command csize w0.
Proof.
  destruct j as [|j]; [now exists w|].
  cbn [attempt]. destruct (attempt env command csize j w) as [rc w1].
  unfold call at 1. eexists. reflexivity.
Qed.

(** A [send] that succeeds was not cancelled, wrote the command, and read
    one byte, which was ACK. *)
Lemma send_success (w w' : world) :
  oceanic_veo250_send env command csize w = (DC_STATUS_SUCCESS, w') ->
  exists c p rw r1,
    w' = (SerialRead 1, r1)
         :: (SerialWrite (slice command 0 csize), rw)
         :: (SerialPurge DC_DIRECTION_INPUT, p)
         :: (DeviceIsCancelled, c) :: w
    /\ rp_flag c = false
    /\ rp_status rw = DC_STATUS_SUCCESS
    /\ rp_status r1 = DC_STATUS_SUCCESS
    /\ byte_at (store [NAK] (rp_data r1) 1) 0 = ACK.
Proof.
  unfold oceanic_veo250_send, call.
  destruct (rp_flag _) eqn:Hc; [discriminate|].
  destruct (is_success (rp_status (env (_ :: _ :: w) _))) eqn:Hw;
    cbn [negb].
  2:{ intro E; injection E as E _. rewrite E in Hw. discriminate. }
  destruct (is_success (rp_status (env (_ :: _ :: _ :: w) _))) eqn:Hr;
    cbn [negb].
  2:{ intro E; injection E as E _. rewrite E in Hr. discriminate. }
  destruct (Byte.eqb _ ACK) eqn:Hack; cbn [negb]; [|discriminate].
  intro E; injection E as <-.
  do 4 eexists. split; [reflexivity|]. split; [exact Hc|].
  split; [now apply is_success_eq|].
  split; [now apply is_success_eq|].
  now apply byte_eqb_eq.
Qed.

End Transfer.

Lemma transfer_success_shape
    (env : environment) (command : list byte) (csize : Z)
    (answer : list byte) (asize : Z) (w : world)
    (answer' : list byte) (w' : world) :
  oceanic_veo250_transfer env command csize answer asize w
  = Some (DC_STATUS_SUCCESS, answer', w') ->
  exists c p rw r1 r2 w0,
    w' = (SerialRead asize, r2)
         :: (SerialRead 1, r1)
         :: (SerialWrite (slice command 0 csize), rw)
         :: (SerialPurge DC_DIRECTION_INPUT, p)
         :: (DeviceIsCancelled, c) :: w0
    /\ rp_flag c = false
    /\ rp_status rw = DC_STATUS_SUCCESS
    /\ rp_status r1 = DC_STATUS_SUCCESS
    /\ byte_at (store [NAK] (rp_data r1) 1) 0 = ACK
    /\ rp_status r2 = DC_STATUS_SUCCESS
    /\ answer' = store answer (rp_data r2) asize
    /\ byte_at answer' (u32 (asize - 1)) = NAK.
Proof.
  unfold oceanic_veo250_transfer.
  destruct (handshake_attempts env command csize handshake_fuel 0 w)
    as (k & _ & Hh & _);
    [unfold MAXRETRIES; lia | unfold handshake_fuel, MAXRETRIES; cbn; lia|].
  rewrite Hh.
  destruct (attempt_is_send env command csize (k - 1) w) as (w0 & Hsend).
  rewrite Hsend.
  destruct (oceanic_veo250_send env command csize w0) as [rc w1] eqn:Hs.
  destruct (is_success rc) eqn:Hok; cbn [negb].
  2:{ intro E; injection E as E _ _. rewrite E in Hok. discriminate. }
  apply is_success_eq in Hok. subst rc.
  destruct (send_success env command csize w0 w1 Hs)
    as (c & p & rw & r1 & -> & Hc & Hw & Hr & Hack).
  unfold call.
  destruct (is_success (rp_status _)) eqn:Hr2; cbn [negb].
  2:{ intro E; injection E as E _ _. rewrite E in Hr2. discriminate. }
  destruct (Byte.eqb _ NAK) eqn:Hnak; cbn [negb]; [|discriminate].
  intro E; injection E as <- <-.
  exists c, p, rw, r1. do 2 eexists.
  split; [reflexivity|]. repeat split; try assumption.
  - now apply is_success_eq.
  - now apply byte_eqb_eq.
Qed.

(** X10. A transfer reports success only after this exchange: the download
    was not cancelled, the command was written, one byte was read and was
    ACK, and the answer was read in full and its last byte is NAK. These
    are the last five requests of the log, and the answer returned is what
    the last read brought. *)
Theorem transfer_success_exchange
    (env : environment) (command : list byte) (csize : Z)
    (answer : list byte) (asize : Z) (w : world)
    (answer' : list byte) (w' : world) :
  oceanic_veo250_transfer env command csize answer asize w
  = Some (DC_STATUS_SUCCESS, answer', w') ->
  exists c p rw r1 r2 w0,
    w' = (SerialRead asize, r2)
         :: (SerialRead 1, r1)
         :: (SerialWrite (slice command 0 csize), rw)
         :: (SerialPurge DC_DIRECTION_INPUT, p)
         :: (DeviceIsCancelled, c) :: w0
    /\ rp_flag c = false
    /\ rp_status rw = DC_STATUS_SUCCESS
    /\ rp_status r1 = DC_STATUS_SUCCESS
    /\ byte_at (store [NAK] (rp_data r1) 1) 0 = ACK
    /\ rp_status r2 = DC_STATUS_SUCCESS
    /\ answer' = store answer (rp_data r2) asize
    /\ byte_at answer' (u32 (asize - 1)) = NAK.
Proof.
  intro H.
  destruct (transfer_success_shape env command csize answer asize w
              answer' w' H) as (c & p & rw & r1 & r2 & w0 & Hshape).
  exists c, p, rw, r1, r2, w0. exact Hshape.
Qed.

Lemma transfer_success_exchange_witness :
  let env := scripted [[ACK]; sample_page ++ [x71; NAK]] in
  exists c p rw r1 r2 w0,
    [(SerialRead 18, answer DC_STATUS_SUCCESS (sample_page ++ [x71; NAK]) false);
     (SerialRead 1, answer DC_STATUS_SUCCESS [ACK] false);
     (SerialWrite [x90; x00], answer DC_STATUS_SUCCESS [] false);
     (SerialPurge DC_DIRECTION_INPUT, answer DC_STATUS_SUCCESS [] false);
     (DeviceIsCancelled, answer DC_STATUS_SUCCESS [] false)]
    = (SerialRead 18, r2)
      :: (SerialRead 1, r1)
      :: (SerialWrite (slice [x90; x00] 0 2), rw)
      :: (SerialPurge DC_DIRECTION_INPUT, p)
      :: (DeviceIsCancelled, c) :: w0
    /\ rp_flag c = false
    /\ rp_status rw = DC_STATUS_SUCCESS
    /\ rp_status r1 = DC_STATUS_SUCCESS
    /\ byte_at (store [NAK] (rp_data r1) 1) 0 = ACK
    /\ rp_status r2 = DC_STATUS_SUCCESS
    /\ sample_page ++ [x71; NAK] = store (repeat x00 18) (rp_data r2) 18
    /\ byte_at (sample_page ++ [x71; NAK]) (u32 (18 - 1)) = NAK.
Proof.
  apply (transfer_success_exchange
           (scripted [[ACK]; sample_page ++ [x71; NAK]])
           [x90; x00] 2 (repeat x00 18) 18 []).
  vm_compute. reflexivity.
Defined.

(** *** Page numbers on the wire *)

Lemma low_byte (x : Z) : byte_val (byte_of_Z (Z.land x 0xFF)) = x mod 256.
Proof.
  change 0xFF with (Z.ones 8). rewrite Z.land_ones by lia.
  change (2 ^ 8) with 256. apply byte_val_of_Z. apply Z.mod_pos_bound. lia.
Qed.

Lemma high_byte (x : Z) :
  byte_val (byte_of_Z (Z.land (Z.shiftr x 8) 0xFF)) = (x / 256) mod 256.
Proof.
  rewrite low_byte, Z.shiftr_div_pow2 by lia. reflexivity.
Qed.

Lemma uint16_le_encoded (x : Z) :
  uint16_le (byte_of_Z (Z.land x 0xFF))
            (byte_of_Z (Z.land (Z.shiftr x 8) 0xFF))
  = x mod 65536.
Proof.
  unfold uint16_le. rewrite low_byte, high_byte.
  change 65536 with (256 * 256). rewrite Z.rem_mul_r by lia. reflexivity.
Qed.

(** X11. The commands carry page numbers in sixteen bits, the low byte
    first: read back from the read command, the two numbers are [first]
    and [last] modulo 65536, and likewise the page number of the keepalive
    command. *)
Theorem commands_carry_page_numbers (first last : Z) :
  (exists b1 b2 b3 b4,
      read_command first last = [x20; b1; b2; b3; b4; x00]
      /\ uint16_le b1 b2 = first mod 65536
      /\ uint16_le b3 b4 = last mod 65536)
  /\ (exists b1 b2,
        keepalive_command last = [x91; b1; b2; x00]
        /\ uint16_le b1 b2 = last mod 65536).
Proof.
  split.
  - do 4 eexists. split; [reflexivity|].
    split; apply uint16_le_encoded.
  - do 2 eexists. split; [reflexivity|]. apply uint16_le_encoded.
Qed.

(** *** Reading pages *)

Lemma transfer_returns (env : environment) (command : list byte) (csize : Z)
    (answer : list byte) (asize : Z) (w : world) :
  exists rc answer' w',
    oceanic_veo250_transfer env command csize answer asize w
    = Some (rc, answer', w')
    /\ (length answer <= length answer')%nat.
Proof.
  unfold oceanic_veo250_transfer.
  destruct (handshake_attempts env command csize handshake_fuel 0 w)
    as (k & _ & Hh & _);
    [unfold MAXRETRIES; lia | unfold handshake_fuel, MAXRETRIES; cbn; lia|].
  rewrite Hh. destruct (attempt env command csize (k - 1) w) as [rc w1].
  destruct (negb (is_success rc)); [now do 3 eexists|].
  unfold call.
  assert (Hlen : (length answer
                  <= length (store answer (rp_data (env w1 (SerialRead asize)))
                                   asize))%nat).
  { unfold store. rewrite length_app, length_skipn. lia. }
  destruct (negb (is_success _)); [now do 3 eexists|].
  destruct (negb (Byte.eqb _ _)); now do 3 eexists.
Qed.

Section ReadPackets.

Variable PAGESIZE : Z.
Hypothesis Hpage : 0 < PAGESIZE.

(** The inner loop copies out whole pages, [j] of them, and counts them
    in [nbytes] and [address]; it fails only with a protocol error, before
    the last page. *)
Lemma read_packets_pages (n : nat) (answer : list byte) :
  forall offset nbytes address out,
    0 <= offset -> 0 <= nbytes -> 0 <= address ->
    offset + Z.of_nat n * (PAGESIZE + 1) <= Z.of_nat (length answer) ->
    offset + Z.of_nat n * (PAGESIZE + 1) < 4294967296 ->
    nbytes + Z.of_nat n * PAGESIZE < 4294967296 ->
    address + Z.of_nat n * PAGESIZE < 4294967296 ->
    exists (j : nat) rc out',
      read_packets PAGESIZE n answer offset nbytes address out
      = (rc, nbytes + Z.of_nat j * PAGESIZE,
         address + Z.of_nat j * PAGESIZE, out')
      /\ Z.of_nat (length out')
         = Z.of_nat (length out) + Z.of_nat j * PAGESIZE
      /\ ((rc = DC_STATUS_SUCCESS /\ j = n)
          \/ (rc = DC_STATUS_PROTOCOL /\ (j < n)%nat)).
Proof.
  induction n as [|n IH]; intros offset nbytes address out Ho Hn Ha Hans
                                Hlen Hnb Had.
  - exists 0%nat, DC_STATUS_SUCCESS, out. cbn [read_packets].
    rewrite !Z.add_0_r. auto.
  - cbn [read_packets].
    assert (Hprod : 0 <= Z.of_nat n * PAGESIZE)
      by (apply Z.mul_nonneg_nonneg; lia).
    rewrite Nat2Z.inj_succ in Hans, Hlen, Hnb, Had.
    destruct (negb (_ =? _)).
    + exists 0%nat, DC_STATUS_PROTOCOL, out.
      rewrite !Z.add_0_r. split; [reflexivity|]. split; [reflexivity|].
      right. split; [reflexivity | lia].
    + rewrite !u32_small by lia.
      destruct (IH (offset + (PAGESIZE + 1)) (nbytes + PAGESIZE)
                   (address + PAGESIZE)
                   (out ++ slice answer offset PAGESIZE))
        as (j & rc & out' & Hr & Hout & Hrc); try lia.
      exists (S j), rc, out'. rewrite Hr.
      split; [f_equal; f_equal; [f_equal|]; lia|].
      split.
      * rewrite Hout, length_app, slice_length by lia. lia.
      * destruct Hrc as [[-> ->]|[-> Hj]]; [left | right]; split;
          try reflexivity; lia.
Qed.

End ReadPackets.

Section ReadLoop.

Variable env : environment.
Variable PAGESIZE : Z.

(** The read starts at page [a] and asks for [M] pages. *)
Variables a M : Z.
Hypothesis Hpage : 0 < PAGESIZE.
Hypothesis Hbuffer : (PAGESIZE + 1) * MULTIPAGE + 1 < 4294967296.
Hypothesis Ha : 0 <= a.
Hypothesis HM : 0 <= M.
Hypothesis Hend : (a + M) * PAGESIZE < 4294967296.

(** With [m] pages read and enough fuel for the rest, the outer loop ends;
    it has then read whole pages, all [M] if it succeeds, and [last] is the
    last one it asked for. *)
Lemma read_loop_pages (fuel : nat) :
  forall device m out w,
    0 <= m <= M ->
    Z.of_nat (length out) = m * PAGESIZE ->
    (M - m) * PAGESIZE <= Z.of_nat fuel ->
    exists rc device' out' w' m',
      read_loop env PAGESIZE fuel device ((a + m) * PAGESIZE)
                (m * PAGESIZE) (M * PAGESIZE) out w
      = Some (rc, device', out', w')
      /\ same_base device device'
      /\ Z.of_nat (length out') = m' * PAGESIZE
      /\ m <= m' <= M
      /\ (rc = DC_STATUS_SUCCESS ->
          m' = M
          /\ (m < M -> last device' = a + M - 1)
          /\ (m = M -> device' = device)).
Proof.
  induction fuel as [|fuel IH]; intros device m out w Hm Hout Hfuel.
  - assert (m = M) as ->.
    { destruct (Z.eq_dec m M) as [E|E]; [exact E|]. exfalso.
      pose proof (Z.mul_nonneg_nonneg (M - m - 1) PAGESIZE
                    ltac:(lia) ltac:(lia)).
      lia. }
    exists DC_STATUS_SUCCESS, device, out, w, M. cbn [read_loop].
    rewrite Z.ltb_irrefl. cbn [negb].
    split; [reflexivity|]. split; [unfold same_base; auto|].
    split; [assumption|]. split; [lia|]. intros _.
    split; [reflexivity|]. split; [lia | reflexivity].
  - cbn [read_loop]. destruct (m * PAGESIZE <? M * PAGESIZE) eqn:Hlt;
      cbn [negb].
    2:{ apply Z.ltb_ge in Hlt. assert (m = M) as ->.
        { destruct (Z.eq_dec m M) as [E|E]; [exact E|]. exfalso.
          pose proof (Z.mul_nonneg_nonneg (M - m - 1) PAGESIZE
                        ltac:(lia) ltac:(lia)).
          lia. }
        exists DC_STATUS_SUCCESS, device, out, w, M.
        split; [reflexivity|]. split; [unfold same_base; auto|].
        split; [assumption|]. split; [lia|]. intros _.
        split; [reflexivity|]. split; [lia | reflexivity]. }
    apply Z.ltb_lt in Hlt.
    assert (Hmm : m < M).
    { destruct (Z.lt_ge_cases m M) as [E|E]; [exact E|]. exfalso.
      pose proof (Z.mul_nonneg_nonneg (m - M) PAGESIZE ltac:(lia) ltac:(lia)).
      lia. }
    assert (HmP : 0 <= m * PAGESIZE) by (apply Z.mul_nonneg_nonneg; lia).
    assert (HaP : 0 <= a * PAGESIZE) by (apply Z.mul_nonneg_nonneg; lia).
    assert (HaM : 0 <= (a + M) * (PAGESIZE - 1))
      by (apply Z.mul_nonneg_nonneg; lia).
    rewrite (u32_small (M * PAGESIZE - m * PAGESIZE)) by lia.
    replace (M * PAGESIZE - m * PAGESIZE) with ((M - m) * PAGESIZE) by ring.
    rewrite !Z.div_mul by lia.
    set (np := if MULTIPAGE <? M - m then MULTIPAGE else M - m).
    assert (Hnp : 1 <= np <= MULTIPAGE /\ np <= M - m).
    { subst np. unfold MULTIPAGE. destruct (4 <? M - m) eqn:E;
        [apply Z.ltb_lt in E | apply Z.ltb_ge in E]; lia. }
    clearbody np. unfold MULTIPAGE in Hbuffer, Hnp.
    assert (Hnp1 : 0 <= (np - 1) * PAGESIZE)
      by (apply Z.mul_nonneg_nonneg; lia).
    assert (Hnp4 : 0 <= (4 - np) * PAGESIZE)
      by (apply Z.mul_nonneg_nonneg; lia).
    assert (HnpM : 0 <= (M - m - np) * PAGESIZE)
      by (apply Z.mul_nonneg_nonneg; lia).
    rewrite (u32_small (a + m + np - 1)) by lia.
    rewrite (u32_small ((PAGESIZE + 1) * np + 1)) by lia.
    destruct (transfer_returns env (read_command (a + m) (a + m + np - 1)) 6
                (repeat x00 (Z.to_nat ((PAGESIZE + 1) * MULTIPAGE + 1)))
                ((PAGESIZE + 1) * np + 1) w)
      as (rc & answer & w1 & Ht & Hans).
    rewrite Ht. rewrite repeat_length in Hans. unfold MULTIPAGE in Hans.
    destruct (is_success rc) eqn:Hok; cbn [negb].
    2:{ exists rc, device, out, w1, m.
        split; [reflexivity|]. split; [unfold same_base; auto|].
        split; [assumption|]. split; [lia|].
        intros ->. discriminate. }
    assert (Hnpid : Z.of_nat (Z.to_nat np) = np) by lia.
    destruct (read_packets_pages PAGESIZE Hpage (Z.to_nat np) answer
                0 (m * PAGESIZE) ((a + m) * PAGESIZE) out)
      as (j & rc' & out' & Hr & Hout' & Hrc); rewrite ?Hnpid; try lia.
    rewrite Hr.
    destruct Hrc as [[-> ->]|[-> Hj]].
    + rewrite Hnpid in *.
      replace (m * PAGESIZE + np * PAGESIZE) with ((m + np) * PAGESIZE) by ring.
      replace ((a + m) * PAGESIZE + np * PAGESIZE)
        with ((a + (m + np)) * PAGESIZE) by ring.
      match goal with
      | |- context [read_loop env PAGESIZE fuel ?d _ _ _ _ _] =>
        destruct (IH d (m + np) out' w1)
          as (rc2 & device2 & out2 & w2 & m2 & Hl & Hbase & Hout2 & Hm2 & Hs)
      end; try lia.
      exists rc2, device2, out2, w2, m2. rewrite Hl.
      split; [reflexivity|]. split; [exact Hbase|].
      split; [exact Hout2|]. split; [lia|].
      intro Hrc2. destruct (Hs Hrc2) as (-> & Hlast & Hsame).
      split; [reflexivity|]. split; [|intro; lia].
      intros _. destruct (Z.eq_dec (m + np) M) as [E|E].
      * rewrite (Hsame E). cbn [last]. lia.
      * apply Hlast. lia.
    + eexists DC_STATUS_PROTOCOL, _, out', w1, (m + Z.of_nat j).
      split; [reflexivity|]. split; [unfold same_base; cbn; auto|].
      split; [lia|]. split; [lia|]. intro; discriminate.
Qed.

End ReadLoop.

Lemma device_read_pages
    (env : environment) (PAGESIZE : Z) (device : oceanic_veo250_device_t)
    (address size : Z) (w : world) :
  0 < PAGESIZE ->
  (PAGESIZE + 1) * MULTIPAGE + 1 < 4294967296 ->
  0 <= address -> 0 <= size -> address + size < 4294967296 ->
  exists rc device' out w',
    oceanic_veo250_device_read env PAGESIZE device address size w
    = Some (rc, device', out, w')
    /\ same_base device device'
    /\ if (address mod PAGESIZE =? 0) && (size mod PAGESIZE =? 0) then
         Z.of_nat (length out) mod PAGESIZE = 0
         /\ Z.of_nat (length out) <= size
         /\ (rc = DC_STATUS_SUCCESS ->
             Z.of_nat (length out) = size
             /\ (0 < size ->
                 last device' = (address + size) / PAGESIZE - 1))
       else
         rc = DC_STATUS_INVALIDARGS /\ out = [] /\ w' = w /\ device' = device.
Proof.
  intros Hpage Hbuffer Haddr Hsize Hend.
  unfold oceanic_veo250_device_read.
  destruct (address mod PAGESIZE =? 0) eqn:Ea; cbn [negb orb andb].
  2:{ exists DC_STATUS_INVALIDARGS, device, [], w.
      unfold same_base. auto 10. }
  destruct (size mod PAGESIZE =? 0) eqn:Es; cbn [negb].
  2:{ exists DC_STATUS_INVALIDARGS, device, [], w.
      unfold same_base. auto 10. }
  apply Z.eqb_eq in Ea, Es.
  apply Z.div_exact in Ea, Es; try lia.
  set (a := address / PAGESIZE) in *. set (M := size / PAGESIZE) in *.
  assert (Ha : 0 <= a) by (subst a; apply Z.div_pos; lia).
  assert (HM : 0 <= M) by (subst M; apply Z.div_pos; lia).
  assert (Hlast : (a + M) * PAGESIZE < 4294967296) by nia.
  destruct (read_loop_pages env PAGESIZE a M Hpage Hbuffer Ha HM Hlast
              (Z.to_nat size) device 0 [] w)
    as (rc & device' & out & w' & m' & Hl & Hbase & Hout & Hm' & Hs);
    try nia; [reflexivity|].
  replace ((a + 0) * PAGESIZE) with address in Hl by lia.
  replace (M * PAGESIZE) with size in Hl by lia.
  exists rc, device', out, w'. split; [exact Hl|]. split; [exact Hbase|].
  split; [rewrite Hout; apply Z.mod_mul; lia|]. split; [nia|].
  intro Hrc. destruct (Hs Hrc) as (-> & Hlast' & _).
  split; [lia|]. intro Hpos. rewrite Hlast' by nia.
  replace (address + size) with ((a + M) * PAGESIZE) by lia.
  now rewrite Z.div_mul by lia.
Qed.

(** X12. For a page size and a range of addresses that fit an [unsigned
    int], a read always returns. If the address or the size is not a
    multiple of the page size, it returns [DC_STATUS_INVALIDARGS] without
    a request to the port. Otherwise what it has written through [data] is
    a whole number of pages, no more than asked for; and if it succeeds,
    it has written [size] bytes and, unless [size] is 0, keeps in [last]
    the number of the last page of the range. *)
Theorem device_read_whole_pages
    (env : environment) (PAGESIZE : Z) (device : oceanic_veo250_device_t)
    (address size : Z) (w : world) :
  0 < PAGESIZE ->
  (PAGESIZE + 1) * MULTIPAGE + 1 < 4294967296 ->
  0 <= address -> 0 <= size -> address + size < 4294967296 ->
  exists rc device' out w',
    oceanic_veo250_device_read env PAGESIZE device address size w
    = Some (rc, device', out, w')
    /\ same_base device device'
    /\ if (address mod PAGESIZE =? 0) && (size mod PAGESIZE =? 0) then
         Z.of_nat (length out) mod PAGESIZE = 0
         /\ Z.of_nat (length out) <= size
         /\ (rc = DC_STATUS_SUCCESS ->
             Z.of_nat (length out) = size
             /\ (0 < size ->
                 last device' = (address + size) / PAGESIZE - 1))
       else
         rc = DC_STATUS_INVALIDARGS /\ out = [] /\ w' = w /\ device' = device.
Proof.
  intros Hpage Hbuffer Haddr Hsize Hend.
  destruct (device_read_pages env PAGESIZE device address size w
              Hpage Hbuffer Haddr Hsize Hend)
    as (rc & device' & out & w' & Hread).
  exists rc, device', out, w'. exact Hread.
Qed.

Lemma device_read_whole_pages_witness :
  let env := scripted [[ACK]; sample_page ++ [x71; NAK]] in
  let device := {| base_layout := Some oceanic_veo250_layout;
                   base_version := sample_page;
                   base_multipage := MULTIPAGE; last := 0 |} in
  exists rc device' out w',
    oceanic_veo250_device_read env 16 device 48 16 []
    = Some (rc, device', out, w')
    /\ same_base device device'
    /\ if (48 mod 16 =? 0) && (16 mod 16 =? 0) then
         Z.of_nat (length out) mod 16 = 0
         /\ Z.of_nat (length out) <= 16
         /\ (rc = DC_STATUS_SUCCESS ->
             Z.of_nat (length out) = 16
             /\ (0 < 16 -> last device' = (48 + 16) / 16 - 1))
       else
         rc = DC_STATUS_INVALIDARGS /\ out = [] /\ w' = [] /\ device' = device.
Proof.
  apply (device_read_whole_pages
           (scripted [[ACK]; sample_page ++ [x71; NAK]]) 16
           {| base_layout := Some oceanic_veo250_layout;
              base_version := sample_page;
              base_multipage := MULTIPAGE; last := 0 |}
           48 16 []); unfold MULTIPAGE; lia.
Defined.

(** Six pages are read with two requests, of four pages and of two; the
    second leaves the number of the last page in [last]. *)
Example six_pages :
  let page_sent := sample_page ++ [x71] in
  let env := scripted
               [[ACK];
                page_sent ++ page_sent ++ page_sent ++ page_sent ++ [NAK];
                [ACK];
                page_sent ++ page_sent ++ [NAK]] in
  let device := {| base_layout := Some oceanic_veo250_layout;
                   base_version := []; base_multipage := MULTIPAGE;
                   last := 0 |} in
  option_map (fun r => (fst (fst (fst r)), last (snd (fst (fst r))),
                        length (snd (fst r)),
                        filter (fun rq => match rq with
                                          | SerialWrite _ => true
                                          | _ => false
                                          end) (requests (snd r))))
             (oceanic_veo250_device_read env 16 device 0x40 96 [])
  = Some (DC_STATUS_SUCCESS, 9, 96%nat,
          [SerialWrite [x20; x04; x00; x07; x00; x00];
           SerialWrite [x20; x08; x00; x09; x00; x00]]).
Proof. vm_compute. reflexivity. Qed.

(** *** The version page and the initialization of the cable *)

Lemma store_length (buffer received : list byte) (size : Z) :
  Z.to_nat size = length buffer ->
  length (store buffer received size) = length buffer.
Proof.
  intro H. unfold store. rewrite length_app, length_skipn, length_firstn. lia.
Qed.

(** X13. When the caller's buffer has [size] bytes, the version command
    leaves its length as it is and, unless it succeeds, its contents too.
    When it succeeds, the last request was the read of [PAGESIZE + 2]
    bytes; the first [PAGESIZE] bytes of the buffer are the page received,
    whose byte sum modulo 256 is the byte received after it, the byte
    after that is NAK, and the rest of the buffer is untouched. *)
Theorem version_copies_checked_page (env : environment) (PAGESIZE : Z) (data : list byte)
    (size : Z) (w : world) (rc : dc_status_t) (data' : list byte)
    (w' : world) :
  0 < PAGESIZE -> PAGESIZE + 2 < 4294967296 ->
  Z.of_nat (length data) = size ->
  oceanic_veo250_device_version env PAGESIZE data size w
  = Some (rc, data', w') ->
  length data' = length data
  /\ (rc <> DC_STATUS_SUCCESS -> data' = data)
  /\ (rc = DC_STATUS_SUCCESS ->
      exists r w0,
        w' = (SerialRead (PAGESIZE + 2), r) :: w0
        /\ let answer := store (repeat x00 (Z.to_nat (PAGESIZE + 2)))
                               (rp_data r) (PAGESIZE + 2) in
           firstn (Z.to_nat PAGESIZE) data' = firstn (Z.to_nat PAGESIZE) answer
           /\ skipn (Z.to_nat PAGESIZE) data' = skipn (Z.to_nat PAGESIZE) data
           /\ byte_sum (firstn (Z.to_nat PAGESIZE) data') mod 256
              = byte_val (byte_at answer PAGESIZE)
           /\ byte_at answer (PAGESIZE + 1) = NAK).
Proof.
  intros Hpage Hbound Hlen. unfold oceanic_veo250_device_version.
  destruct (size <? PAGESIZE) eqn:Hsize.
  { intro E; injection E as <- <- <-.
    split; [reflexivity|]. split; [reflexivity|discriminate]. }
  apply Z.ltb_ge in Hsize.
  destruct (oceanic_veo250_transfer _ _ _ _ _ _)
    as [[[rc1 answer] w1]|] eqn:Ht; [|discriminate].
  destruct (is_success rc1) eqn:Hok; cbn [negb].
  2:{ intro E; injection E as <- <- <-.
      split; [reflexivity|]. split; [reflexivity|].
      intros ->. discriminate. }
  apply is_success_eq in Hok. subst rc1.
  destruct (transfer_success_shape _ _ _ _ _ _ _ _ Ht)
    as (c & p & rw & r1 & r2 & w0 & -> & _ & _ & _ & _ & _ & Hans & Hnak).
  replace (u32 (PAGESIZE + 2 - 1)) with (PAGESIZE + 1) in Hnak
    by (unfold u32; rewrite Z.mod_small; lia).
  assert (Hal : length answer = Z.to_nat (PAGESIZE + 2)).
  { rewrite Hans, store_length; rewrite repeat_length; reflexivity. }
  assert (Hslice : slice answer 0 PAGESIZE = firstn (Z.to_nat PAGESIZE) answer)
    by reflexivity.
  destruct (_ =? _) eqn:Hcrc; cbn [negb].
  2:{ intro E; injection E as <- <- <-.
      split; [reflexivity|]. split; [reflexivity|discriminate]. }
  apply Z.eqb_eq in Hcrc. rewrite checksum_add_uint8_sum, Hslice in Hcrc.
  intro E; injection E as <- <- <-.
  assert (Hdata : store data (slice answer 0 PAGESIZE) PAGESIZE
                  = firstn (Z.to_nat PAGESIZE) answer
                    ++ skipn (Z.to_nat PAGESIZE) data).
  { unfold store. rewrite Hslice, firstn_firstn, Nat.min_id.
    rewrite length_firstn, Hal. f_equal. f_equal. lia. }
  assert (Hfl : length (firstn (Z.to_nat PAGESIZE) answer)
                = Z.to_nat PAGESIZE)
    by (rewrite length_firstn, Hal; lia).
  rewrite Hdata.
  split; [rewrite length_app, length_skipn, Hfl; lia|].
  split; [intro H; now elim H|]. intros _.
  exists r2, ((SerialRead 1, r1) :: (SerialWrite (slice [x90; x00] 0 2), rw)
              :: (SerialPurge DC_DIRECTION_INPUT, p)
              :: (DeviceIsCancelled, c) :: w0).
  split; [reflexivity|]. cbv zeta. rewrite <- Hans.
  assert (Hfirst : firstn (Z.to_nat PAGESIZE)
                     (firstn (Z.to_nat PAGESIZE) answer
                      ++ skipn (Z.to_nat PAGESIZE) data)
                   = firstn (Z.to_nat PAGESIZE) answer).
  { rewrite firstn_app, Hfl, Nat.sub_diag, firstn_firstn, Nat.min_id.
    cbn [firstn]. apply app_nil_r. }
  rewrite Hfirst.
  split; [reflexivity|].
  split.
  { rewrite skipn_app, Hfl, Nat.sub_diag.
    rewrite skipn_all2 by (rewrite Hfl; lia). reflexivity. }
  split; [symmetry; exact Hcrc | exact Hnak].
Qed.


Lemma version_copies_checked_page_witness :
  let data := repeat x2e 20 in
  let data' := sample_page ++ repeat x2e 4 in
  let w' := [(SerialRead 18,
              answer DC_STATUS_SUCCESS (sample_page ++ [x71; NAK]) false);
             (SerialRead 1, answer DC_STATUS_SUCCESS [ACK] false);
             (SerialWrite [x90; x00], answer DC_STATUS_SUCCESS [] false);
             (SerialPurge DC_DIRECTION_INPUT, answer DC_STATUS_SUCCESS [] false);
             (DeviceIsCancelled, answer DC_STATUS_SUCCESS [] false)] in
  length data' = length data
  /\ (DC_STATUS_SUCCESS <> DC_STATUS_SUCCESS -> data' = data)
  /\ (DC_STATUS_SUCCESS = DC_STATUS_SUCCESS ->
      exists r w0,
        w' = (SerialRead (16 + 2), r) :: w0
        /\ let answer := store (repeat x00 (Z.to_nat (16 + 2)))
                               (rp_data r) (16 + 2) in
           firstn (Z.to_nat 16) data' = firstn (Z.to_nat 16) answer
           /\ skipn (Z.to_nat 16) data' = skipn (Z.to_nat 16) data
           /\ byte_sum (firstn (Z.to_nat 16) data') mod 256
              = byte_val (byte_at answer 16)
           /\ byte_at answer (16 + 1) = NAK).
Proof.
  intros data data' w'.
  apply (version_copies_checked_page
           (scripted [[ACK]; sample_page ++ [x71; NAK]]) 16 data 20 []
           DC_STATUS_SUCCESS data' w');
    try lia; vm_compute; reflexivity.
Defined.

Lemma init_reply_is_response (received : list byte) :
  firstn 13 (store (repeat x00 13) received 13) = response
  <-> firstn 13 received = response.
Proof.
  unfold store. change (Z.to_nat 13) with 13%nat. split.
  - do 13 (destruct received as [|? received];
           [cbn; intro H; discriminate H|]).
    cbn. exact (fun H => H).
  - intros ->. reflexivity.
Qed.

(** X14. The initialization of the cable succeeds in two cases and no
    other, whatever the port answers: the command was written and the
    thirteen bytes read are the known reply; or the command was written
    and the read failed without bringing a single byte. *)
Theorem init_succeeds_iff (env : environment) (w : world) :
  let rw := env w (SerialWrite [x55; x00]) in
  let w1 := (SerialWrite [x55; x00], rw) :: w in
  let rd := env w1 (SerialRead 13) in
  fst (oceanic_veo250_init env w) = DC_STATUS_SUCCESS
  <-> rp_status rw = DC_STATUS_SUCCESS
      /\ ((rp_status rd = DC_STATUS_SUCCESS
           /\ firstn 13 (rp_data rd) = response)
          \/ (rp_status rd <> DC_STATUS_SUCCESS /\ rp_data rd = [])).
Proof.
  cbv zeta. unfold oceanic_veo250_init, call.
  destruct (is_success (rp_status (env w _))) eqn:Hw; cbn [negb].
  2:{ cbn [fst]. split.
      - intro H. rewrite H in Hw. discriminate.
      - intros (H & _). rewrite H in Hw. discriminate. }
  apply is_success_eq in Hw.
  destruct (is_success (rp_status (env (_ :: w) _))) eqn:Hr; cbn [negb].
  - apply is_success_eq in Hr.
    destruct (memcmp_eq _ response 13) eqn:Hm; cbn [negb fst].
    + apply memcmp_eq_true in Hm. change (firstn 13 response) with response in Hm.
      apply (proj1 (init_reply_is_response _)) in Hm.
      split; [intros _|reflexivity]. split; [exact Hw|]. left. now split.
    + apply memcmp_eq_false in Hm.
      change (firstn 13 response) with response in Hm.
      split; [discriminate|]. intros (_ & [(_ & H) | (H & _)]).
      * elim Hm. apply (proj2 (init_reply_is_response _)). exact H.
      * now elim H.
  - apply not_success_status in Hr.
    destruct (rp_data (env (_ :: w) _)) as [|b data] eqn:Hd.
    + cbn. split; [intros _|reflexivity]. split; [exact Hw|]. right.
      now split.
    + cbn [firstn length Nat.eqb fst]. split.
      * intro H. now elim Hr.
      * intros (_ & [(H & _) | (_ & H)]); [now elim Hr | discriminate].
Qed.

(** *** Keeping the connection alive *)

Lemma keepalive_success_shape
    (env : environment) (device : oceanic_veo250_device_t) (w w' : world) :
  oceanic_veo250_device_keepalive env device w
  = Some (DC_STATUS_SUCCESS, w') ->
  exists c p rw r1 r2 w0,
    w' = (SerialRead 2, r2)
         :: (SerialRead 1, r1)
         :: (SerialWrite (keepalive_command (last device)), rw)
         :: (SerialPurge DC_DIRECTION_INPUT, p)
         :: (DeviceIsCancelled, c) :: w0
    /\ byte_at (store [NAK] (rp_data r1) 1) 0 = ACK
    /\ byte_at (store [x00; x00] (rp_data r2) 2) 0 = NAK
    /\ byte_at (store [x00; x00] (rp_data r2) 2) 1 = NAK.
Proof.
  unfold oceanic_veo250_device_keepalive.
  destruct (oceanic_veo250_transfer _ _ _ _ _ _)
    as [[[rc answer'] w1]|] eqn:Ht; [|discriminate].
  destruct (is_success rc) eqn:Hok; cbn [negb].
  2:{ intro E; injection E as E _. rewrite E in Hok. discriminate. }
  apply is_success_eq in Hok. subst rc.
  destruct (Byte.eqb _ NAK) eqn:Hnak; cbn [negb]; [|discriminate].
  intro E; injection E as <-.
  apply byte_eqb_eq in Hnak.
  destruct (transfer_success_shape _ _ _ _ _ _ _ _ Ht)
    as (c & p & rw & r1 & r2 & w0 & -> & _ & _ & _ & Hack & _ & -> & Hlast).
  exists c, p, rw, r1, r2, w0.
  split; [reflexivity|]. split; [exact Hack|]. split; [exact Hnak|].
  exact Hlast.
Qed.

(** X15. After a read of a range that is not empty has succeeded, a
    keepalive that succeeds has written the command 0x91 with the number of
    the last page of that range, has read ACK, and has read two bytes that
    are both NAK: the second is checked by the transfer, the first by the
    keepalive itself. *)
Theorem keepalive_names_last_page_read
    (env : environment) (PAGESIZE : Z) (device device' : oceanic_veo250_device_t)
    (address size : Z) (out : list byte) (w w1 w2 : world) :
  0 < PAGESIZE ->
  (PAGESIZE + 1) * MULTIPAGE + 1 < 4294967296 ->
  0 <= address -> 0 < size -> address + size < 4294967296 ->
  oceanic_veo250_device_read env PAGESIZE device address size w
  = Some (DC_STATUS_SUCCESS, device', out, w1) ->
  oceanic_veo250_device_keepalive env device' w1
  = Some (DC_STATUS_SUCCESS, w2) ->
  exists c p rw r1 r2 w0,
    w2 = (SerialRead 2, r2)
         :: (SerialRead 1, r1)
         :: (SerialWrite
               (keepalive_command ((address + size) / PAGESIZE - 1)), rw)
         :: (SerialPurge DC_DIRECTION_INPUT, p)
         :: (DeviceIsCancelled, c) :: w0
    /\ byte_at (store [NAK] (rp_data r1) 1) 0 = ACK
    /\ byte_at (store [x00; x00] (rp_data r2) 2) 0 = NAK
    /\ byte_at (store [x00; x00] (rp_data r2) 2) 1 = NAK.
Proof.
  intros Hpage Hbuffer Haddr Hsize Hend Hread Hkeep.
  destruct (device_read_pages env PAGESIZE device address size w
              Hpage Hbuffer Haddr (Z.lt_le_incl _ _ Hsize) Hend)
    as (rc & d & o & w' & Hread' & _ & Hcases).
  rewrite Hread in Hread'. injection Hread' as <- <- <- <-.
  assert (Hlast : last device' = (address + size) / PAGESIZE - 1).
  { destruct ((address mod PAGESIZE =? 0) && (size mod PAGESIZE =? 0)).
    - destruct Hcases as (_ & _ & Hs). now apply Hs.
    - destruct Hcases as (Hrc & _). discriminate. }
  rewrite <- Hlast.
  exact (keepalive_success_shape env device' w1 w2 Hkeep).
Qed.

Lemma keepalive_names_last_page_read_witness :
  let env := scripted [[ACK]; sample_page ++ [x71; NAK]; [ACK]; [NAK; NAK]] in
  let device := {| base_layout := Some oceanic_veo250_layout;
                   base_version := sample_page;
                   base_multipage := MULTIPAGE; last := 0 |} in
  let w1 := [(SerialRead 18,
              answer DC_STATUS_SUCCESS (sample_page ++ [x71; NAK]) false);
             (SerialRead 1, answer DC_STATUS_SUCCESS [ACK] false);
             (SerialWrite [x20; x03; x00; x03; x00; x00],
              answer DC_STATUS_SUCCESS [] false);
             (SerialPurge DC_DIRECTION_INPUT, answer DC_STATUS_SUCCESS [] false);
             (DeviceIsCancelled, answer DC_STATUS_SUCCESS [] false)] in
  exists c p rw r1 r2 w0,
    (SerialRead 2, answer DC_STATUS_SUCCESS [NAK; NAK] false)
    :: (SerialRead 1, answer DC_STATUS_SUCCESS [ACK] false)
    :: (SerialWrite [x91; x03; x00; x00], answer DC_STATUS_SUCCESS [] false)
    :: (SerialPurge DC_DIRECTION_INPUT, answer DC_STATUS_SUCCESS [] false)
    :: (DeviceIsCancelled, answer DC_STATUS_SUCCESS [] false) :: w1
    = (SerialRead 2, r2)
      :: (SerialRead 1, r1)
      :: (SerialWrite (keepalive_command ((48 + 16) / 16 - 1)), rw)
      :: (SerialPurge DC_DIRECTION_INPUT, p)
      :: (DeviceIsCancelled, c) :: w0
    /\ byte_at (store [NAK] (rp_data r1) 1) 0 = ACK
    /\ byte_at (store [x00; x00] (rp_data r2) 2) 0 = NAK
    /\ byte_at (store [x00; x00] (rp_data r2) 2) 1 = NAK.
Proof.
  intros env device w1.
  apply (keepalive_names_last_page_read env 16 device
           {| base_layout := Some oceanic_veo250_layout;
              base_version := sample_page;
              base_multipage := MULTIPAGE; last := 3 |}
           48 16 sample_page [] w1);
    try (unfold MULTIPAGE; lia); vm_compute; reflexivity.
Defined.

(** *** What open takes and close gives back *)

Section Resources.

Variable env : environment.

Lemma resources_io (rq : request) (r : reply) (w : world) :
  is_io rq = true -> resources ((rq, r) :: w) = resources w.
Proof. destruct rq; (discriminate || reflexivity). Qed.

Lemma send_resources (command : list byte) (csize : Z) (w : world) :
  resources (snd (oceanic_veo250_send env command csize w)) = resources w.
Proof.
  unfold oceanic_veo250_send, call.
  repeat match goal with
         | |- context [if ?b then _ else _] => destruct b
         end; cbn [snd]; now rewrite !resources_io.
Qed.

Lemma attempt_resources (command : list byte) (csize : Z) (j : nat)
    (w : world) :
  resources (snd (attempt env command csize j w)) = resources w.
Proof.
  induction j as [|j IH]; cbn [attempt]; [apply send_resources|].
  destruct (attempt env command csize j w) as [rc w1]. cbn [snd] in IH.
  unfold call at 1. rewrite send_resources, resources_io by reflexivity.
  exact IH.
Qed.

Lemma transfer_resources (command : list byte) (csize : Z)
    (answer : list byte) (asize : Z) (w : world) :
  exists rc answer' w',
    oceanic_veo250_transfer env command csize answer asize w
    = Some (rc, answer', w')
    /\ resources w' = resources w.
Proof.
  unfold oceanic_veo250_transfer.
  destruct (handshake_attempts env command csize handshake_fuel 0 w)
    as (k & _ & Hh & _);
    [unfold MAXRETRIES; lia | unfold handshake_fuel, MAXRETRIES; cbn; lia|].
  rewrite Hh.
  pose proof (attempt_resources command csize (k - 1) w) as Hres.
  destruct (attempt env command csize (k - 1) w) as [rc w1].
  cbn [snd] in Hres.
  destruct (negb (is_success rc)); [now do 3 eexists|].
  unfold call.
  destruct (negb (is_success _));
    [|destruct (negb (Byte.eqb _ _))];
    do 3 eexists; (split; [reflexivity|]);
    now rewrite resources_io.
Qed.

Lemma init_resources (w : world) :
  resources (snd (oceanic_veo250_init env w)) = resources w.
Proof.
  unfold oceanic_veo250_init, call.
  repeat match goal with
         | |- context [if ?b then _ else _] => destruct b
         end; cbn [snd]; now rewrite !resources_io.
Qed.

Lemma version_resources (PAGESIZE : Z) (data : list byte) (size : Z)
    (w : world) :
  exists rc data' w',
    oceanic_veo250_device_version env PAGESIZE data size w
    = Some (rc, data', w')
    /\ resources w' = resources w.
Proof.
  unfold oceanic_veo250_device_version.
  destruct (size <? PAGESIZE); [now do 3 eexists|].
  destruct (transfer_resources [x90; x00] 2
              (repeat x00 (Z.to_nat (PAGESIZE + 2))) (PAGESIZE + 2) w)
    as (rc & answer' & w' & -> & Hres).
  destruct (negb (is_success rc)); [now do 3 eexists|].
  destruct (negb (_ =? _)); now do 3 eexists.
Qed.

Lemma quit_resources (w : world) :
  resources (snd (oceanic_veo250_quit env w)) = resources w.
Proof.
  unfold oceanic_veo250_quit, call.
  destruct (negb _); cbn [snd]; now rewrite resources_io.
Qed.

Lemma resources_eq (w : world) (o c a f : nat) :
  resources w = (o, c, a, f) ->
  opened w = o /\ closed w = c /\ allocated w = a /\ freed w = f.
Proof. unfold resources. intro H. now inversion H. Qed.

Lemma error_close_resources (status : dc_status_t) (w : world) :
  exists w', error_close env status w = (status, None, w')
             /\ resources w'
                = (opened w, S (closed w), allocated w, S (freed w)).
Proof. unfold error_close, call. eexists. split; reflexivity. Qed.

Lemma open_outcome (PAGESIZE : Z) (name : list byte) (w : world) :
  exists rc dev w',
    oceanic_veo250_device_open env PAGESIZE name w = Some (rc, dev, w')
    /\ match dev with
       | Some device =>
         rc = DC_STATUS_SUCCESS
         /\ base_layout device = Some oceanic_veo250_layout
         /\ base_multipage device = MULTIPAGE
         /\ last device = 0
         /\ resources w'
            = (S (opened w), closed w, S (allocated w), freed w)
       | None => rc <> DC_STATUS_SUCCESS /\ balanced w w'
       end.
Proof.
  unfold oceanic_veo250_device_open.
  unfold call at 1. destruct (rp_flag _) eqn:Hf; cbn [negb].
  2:{ do 3 eexists. split; [reflexivity|]. split; [discriminate|].
      unfold balanced, opened, closed, allocated, freed.
      cbn [filter fst]. rewrite Hf. lia. }
  set (w1 := (DeviceAllocate, _) :: w).
  assert (H1 : resources w1
               = (opened w, closed w, S (allocated w), freed w)).
  { unfold resources, opened, closed, allocated, freed, w1.
    cbn [filter fst]. now rewrite Hf. }
  unfold call at 1. destruct (is_success _) eqn:Ho; cbn [negb].
  2:{ unfold error_free, call. do 3 eexists. split; [reflexivity|].
      split; [now apply not_success_status|].
      apply resources_eq in H1 as (Ho1 & Hc1 & Ha1 & Hf1).
      unfold balanced, opened, closed, allocated, freed in *.
      cbn [filter fst]. fold w1. rewrite Ho. cbn [length]. lia. }
  set (w2 := (SerialOpen name, _) :: w1).
  assert (H2 : resources w2
               = (S (opened w), closed w, S (allocated w), freed w)).
  { apply resources_eq in H1 as (Ho1 & Hc1 & Ha1 & Hf1).
    unfold resources, opened, closed, allocated, freed, w2 in *.
    cbn [filter fst]. rewrite Ho. cbn [length]. congruence. }
  assert (Hclose : forall status w',
             status <> DC_STATUS_SUCCESS ->
             resources w' = resources w2 ->
             exists rc dev w'',
               Some (error_close env status w') = Some (rc, dev, w'')
               /\ match dev with
                  | Some device =>
                    rc = DC_STATUS_SUCCESS
                    /\ base_layout device = Some oceanic_veo250_layout
                    /\ base_multipage device = MULTIPAGE
                    /\ last device = 0
                    /\ resources w''
                       = (S (opened w), closed w, S (allocated w), freed w)
                  | None => rc <> DC_STATUS_SUCCESS /\ balanced w w''
                  end).
  { intros status w' Hst Hres.
    destruct (error_close_resources status w') as (w'' & -> & Hres').
    exists status, None, w''. split; [reflexivity|]. split; [exact Hst|].
    rewrite H2 in Hres.
    apply resources_eq in Hres as (Ho' & Hc' & Ha' & Hf').
    apply resources_eq in Hres' as (Ho'' & Hc'' & Ha'' & Hf'').
    unfold balanced. lia. }
  clearbody w2. clear H1 Ho.
  unfold call at 1. destruct (is_success _) eqn:E3; cbn [negb].
  2:{ apply Hclose; [now apply not_success_status|]. now rewrite !resources_io. }
  apply is_success_eq in E3.
  unfold call at 1. destruct (is_success _) eqn:E4; cbn [negb].
  2:{ apply Hclose; [now apply not_success_status|]. now rewrite !resources_io. }
  apply is_success_eq in E4.
  unfold call at 1. destruct (is_success _) eqn:E5; cbn [negb].
  2:{ apply Hclose; [now apply not_success_status|]. now rewrite !resources_io. }
  apply is_success_eq in E5.
  unfold call at 1. destruct (is_success _) eqn:E6; cbn [negb].
  2:{ apply Hclose; [now apply not_success_status|]. now rewrite !resources_io. }
  apply is_success_eq in E6.
  unfold call at 1. unfold call at 1.
  match goal with
  | |- context [oceanic_veo250_init env ?w0] =>
    pose proof (init_resources w0) as Hinit;
    rewrite !resources_io in Hinit by reflexivity;
    destruct (oceanic_veo250_init env w0) as [status w9]
  end.
  cbn [snd] in Hinit.
  destruct (is_success status) eqn:E7; cbn [negb].
  2:{ apply Hclose; [now apply not_success_status | exact Hinit]. }
  unfold call at 1.
  match goal with
  | |- context [oceanic_veo250_device_version env PAGESIZE ?d ?s ?w0] =>
    destruct (version_resources PAGESIZE d s w0)
      as (rc & version & w11 & -> & Hver)
  end.
  rewrite resources_io in Hver by reflexivity.
  destruct (is_success rc) eqn:E8; cbn [negb].
  2:{ apply Hclose; [now apply not_success_status | congruence]. }
  do 3 eexists. split; [reflexivity|]. cbn.
  repeat split. congruence.
Qed.

Variable dc_status_set_error : dc_status_t -> dc_status_t -> dc_status_t.

Lemma close_resources (w : world) :
  resources (snd (oceanic_veo250_device_close env dc_status_set_error w))
  = (opened w, S (closed w), allocated w, freed w).
Proof.
  unfold oceanic_veo250_device_close.
  pose proof (quit_resources w) as Hq.
  destruct (oceanic_veo250_quit env w) as [rc w1]. cbn [snd] in Hq.
  unfold call. apply (resources_eq w1) in Hq as (Ho & Hc & Ha & Hf).
  destruct (negb _); cbn [snd];
    unfold resources, opened, closed, allocated, freed in *;
    cbn [filter fst length]; congruence.
Qed.

(** X16. Opening always returns. When it fails, the status is not success,
    no handle is returned, and every port that was opened has been closed
    and every handle that was allocated has been given back. When it
    succeeds, the handle has the VEO 250 layout, the multipage size of
    this file and [last = 0]; one port and one handle are held, and
    [oceanic_veo250_device_close] closes the port once, whatever happens
    to its quit command, and leaves the handle to its caller. *)
Theorem veo250_open_close_balanced (PAGESIZE : Z) (name : list byte)
    (w : world) :
  exists rc dev w',
    oceanic_veo250_device_open env PAGESIZE name w = Some (rc, dev, w')
    /\ match dev with
       | Some device =>
         rc = DC_STATUS_SUCCESS
         /\ base_layout device = Some oceanic_veo250_layout
         /\ base_multipage device = MULTIPAGE
         /\ last device = 0
         /\ resources w'
            = (S (opened w), closed w, S (allocated w), freed w)
         /\ resources
              (snd (oceanic_veo250_device_close env dc_status_set_error w'))
            = (S (opened w), S (closed w), S (allocated w), freed w)
       | None => rc <> DC_STATUS_SUCCESS /\ balanced w w'
       end.
Proof.
  destruct (open_outcome PAGESIZE name w) as (rc & dev & w' & Hopen & H).
  exists rc, dev, w'. split; [exact Hopen|].
  destruct dev as [device|]; [|exact H].
  destruct H as (Hrc & Hl & Hm & Hlast & Hres).
  repeat (split; [assumption|]).
  rewrite close_resources.
  apply resources_eq in Hres as (-> & -> & -> & ->). reflexivity.
Qed.

End Resources.

End OceanicVeo250DeviceTheory.
